(** * Terragrunt configuration resolution ([config/config.go])

    A shallow embedding of the configuration resolver of Terragrunt:
    format detection by file name, decoding into the intermediate
    [terragruntConfigFile], the single-level include resolution and the
    merge of a child configuration into the included (parent) one.

    Conventions.
    - Go strings are byte strings: [string].
    - A Go pointer that the code tests against [nil] is an [option].
    - A Go function returning [(T, error)] is a computation in the monad
      [M] below: [Ret v] is [(v, nil)], [Fail e] is [(nil, e)].
    - [errors.WithStackTrace] only decorates an error with a stack trace;
      it is the identity here.
    - What the resolver does to the outside world (log lines, file
      lookups, calls to the interpolation resolver, to the HCL decoder and
      to the remote-state validator) is recorded, in program order, in a
      trace of [Event]s.
    - The packages [util], [remote], [options], the interpolation helper
      [ResolveTerragruntConfigString], [hcl.Decode] and [path/filepath] are
      not part of [config.go]; they are the fields of [Collaborators]. *)

From Stdlib Require Import Ascii String.
From stdpp Require Import base list strings.

Open Scope string_scope.
Open Scope list_scope.
Open Scope nat_scope.

(** ** Strings *)

(** [strings.HasSuffix(s, suffix)]:
    [len(s) >= len(suffix) && s[len(s)-len(suffix):] == suffix]. *)
Definition HasSuffix (s suffix : string) : bool :=
  (String.length suffix <=? String.length s)
  && String.eqb
       (String.substring (String.length s - String.length suffix)
                         (String.length suffix) s)
       suffix.

(** The name of the file a slash-separated path points to: the text after
    the final ['/'] (the file component of [filepath.Split]). Not used by
    the resolver; it states what the exact-name reading of the format
    detection would look at. *)
Fixpoint lastElement (path : string) : string :=
  match path with
  | EmptyString => EmptyString
  | String c rest =>
      if Ascii.eqb c "/"%char then lastElement rest
      else if bool_decide ("/"%char ∈ String.list_ascii_of_string rest)
           then lastElement rest
           else path
  end.

(** ** Constants *)

Definition DefaultTerragruntConfigPath : string := "terraform.tfvars".
Definition OldTerragruntConfigPath : string := ".terragrunt".

(** ** Errors *)

(** The custom error types of the file, and the errors handed back by the
    collaborators (opaque here, identified by their message). *)
Inductive error : Type :=
| IncludedConfigMissingPath (path : string)
| TooManyLevelsOfInheritance
    (ConfigPath FirstLevelIncludePath SecondLevelIncludePath : string)
| CouldNotResolveTerragruntConfigInFile (path : string)
| CollaboratorError (msg : string).

#[global] Instance error_eq_dec : EqDecision error.
Proof. solve_decision. Defined.

(** The [Error() string] methods. *)
Definition Error (err : error) : string :=
  match err with
  | IncludedConfigMissingPath p =>
      "The include configuration in " +:+ p
      +:+ " must specify a 'path' parameter"
  | TooManyLevelsOfInheritance c f s =>
      c +:+ " includes " +:+ f +:+ ", which itself includes " +:+ s
      +:+ ". Only one level of includes is allowed."
  | CouldNotResolveTerragruntConfigInFile p =>
      "Could not find Terragrunt configuration settings in " +:+ p
  | CollaboratorError msg => msg
  end.

(** ** Effects *)

(** The stages of one parse call, under the names the design gives them. *)
Inductive Stage : Type :=
| Decode | NoBlockCheck | ConvertToFinal | CheckInheritanceDepth
| ResolveParent | Merge.

#[global] Instance Stage_eq_dec : EqDecision Stage.
Proof. solve_decision. Defined.

(** A parse call is either the one of the file the user asked for
    ([include == nil]) or the one of an included file ([include != nil]). *)
Inductive Level : Type := TopLevel | Included.

#[global] Instance Level_eq_dec : EqDecision Level.
Proof. solve_decision. Defined.

Inductive Event : Type :=
| EvLog (msg : string)                 (* Logger.Printf *)
| EvFileExists (path : string)         (* util.FileExists *)
| EvReadFile (path : string)           (* util.ReadFileAsString *)
| EvInterpolate (s : string)           (* ResolveTerragruntConfigString *)
| EvHclDecode (s : string)             (* hcl.Decode *)
| EvFillDefaults                       (* RemoteState.FillDefaults *)
| EvValidate                           (* RemoteState.Validate *)
| EvStage (lvl : Level) (st : Stage).  (* a stage of parseConfigString begins *)

#[global] Instance Event_eq_dec : EqDecision Event.
Proof. solve_decision. Defined.

Inductive outcome (A : Type) : Type :=
| Ret (a : A)
| Fail (e : error)
| OutOfFuel.
Arguments Ret {A} a.
Arguments Fail {A} e.
Arguments OutOfFuel {A}.

(** Computations that may fail and that extend the trace. *)
Definition M (A : Type) : Type := list Event → outcome A * list Event.

Definition ret {A} (a : A) : M A := λ tr, (Ret a, tr).

Definition bind {A B} (m : M A) (f : A → M B) : M B :=
  λ tr, match m tr with
        | (Ret a, tr') => f a tr'
        | (Fail e, tr') => (Fail e, tr')
        | (OutOfFuel, tr') => (OutOfFuel, tr')
        end.

Definition fail {A} (e : error) : M A := λ tr, (Fail e, tr).
Definition emit (ev : Event) : M unit := λ tr, (Ret tt, tr ++ [ev]).

(** Lifting a collaborator's [(T, error)] result. *)
Definition lift {A} (r : error + A) : M A :=
  match r with inl e => fail e | inr a => ret a end.

#[global] Instance M_ret : MRet M := @ret.
#[global] Instance M_bind : MBind M := λ A B f m, bind m f.

Definition Logger_Printf (msg : string) : M unit := emit (EvLog msg).

(** ** Data model *)

(** [options.TerragruntOptions]: the field read by this file (its [Logger]
    is the [EvLog] events of the trace). *)
Record TerragruntOptions : Type := {
  TerragruntConfigPath : string
}.

Record IncludeConfig : Type := {
  Path : string
}.

Record ModuleDependencies : Type := {
  Paths : list string
}.

Record TerraformExtraArguments : Type := {
  Name : string;
  Arguments : list string;
  RequiredVarFiles : list string;
  OptionalVarFiles : list string;
  Commands : list string
}.

Record TerraformConfig : Type := {
  ExtraArgs : list TerraformExtraArguments;
  Source : string
}.

Record TerragruntConfig (RemoteState : Type) : Type := {
  Terraform : option TerraformConfig;
  RemoteState_ : option RemoteState;
  Dependencies : option ModuleDependencies
}.
Arguments Terraform {RemoteState} _.
Arguments RemoteState_ {RemoteState} _.
Arguments Dependencies {RemoteState} _.
Arguments Build_TerragruntConfig {RemoteState} _ _ _.

Record terragruntConfigFile (RemoteState LockConfig : Type) : Type := {
  file_Terraform : option TerraformConfig;
  file_Include : option IncludeConfig;
  file_Lock : option LockConfig;
  file_RemoteState : option RemoteState;
  file_Dependencies : option ModuleDependencies
}.
Arguments file_Terraform {RemoteState LockConfig} _.
Arguments file_Include {RemoteState LockConfig} _.
Arguments file_Lock {RemoteState LockConfig} _.
Arguments file_RemoteState {RemoteState LockConfig} _.
Arguments file_Dependencies {RemoteState LockConfig} _.
Arguments Build_terragruntConfigFile {RemoteState LockConfig} _ _ _ _ _.

Record tfvarsFileWithTerragruntConfig (RemoteState LockConfig : Type) : Type := {
  Terragrunt : option (terragruntConfigFile RemoteState LockConfig)
}.
Arguments Terragrunt {RemoteState LockConfig} _.
Arguments Build_tfvarsFileWithTerragruntConfig {RemoteState LockConfig} _.

(** One call of the function [filepath.Walk] hands to its callback. *)
Record WalkEntry : Type := {
  walk_path : string;
  walk_IsDir : bool;
  walk_err : option error
}.

(** What [config.go] imports. [RemoteState] is [remote.RemoteState] and
    [LockConfig] the [map[interface{}]interface{}] of a lock block; the
    file only passes them on. *)
Record Collaborators (RemoteState LockConfig : Type) : Type := {
  JoinPath : string → string → string;                     (* util.JoinPath *)
  FileExists : string → bool;                              (* util.FileExists *)
  ReadFileAsString : string → error + string;              (* util.ReadFileAsString *)
  IsAbs : string → bool;                                   (* filepath.IsAbs *)
  Dir : string → string;                                   (* filepath.Dir *)
  Walk : string → list WalkEntry;                          (* filepath.Walk *)
  ResolveTerragruntConfigString :
    string → option IncludeConfig → TerragruntOptions → error + string;
  hcl_Decode_terragruntConfigFile :
    string → error + terragruntConfigFile RemoteState LockConfig;
  hcl_Decode_tfvarsFile :
    string → error + tfvarsFileWithTerragruntConfig RemoteState LockConfig;
  FillDefaults : RemoteState → RemoteState;                (* RemoteState.FillDefaults *)
  Validate : RemoteState → option error                    (* RemoteState.Validate *)
}.
Arguments JoinPath {RemoteState LockConfig} _ _ _.
Arguments FileExists {RemoteState LockConfig} _ _.
Arguments ReadFileAsString {RemoteState LockConfig} _ _.
Arguments IsAbs {RemoteState LockConfig} _ _.
Arguments Dir {RemoteState LockConfig} _ _.
Arguments Walk {RemoteState LockConfig} _ _.
Arguments ResolveTerragruntConfigString {RemoteState LockConfig} _ _ _ _.
Arguments hcl_Decode_terragruntConfigFile {RemoteState LockConfig} _ _.
Arguments hcl_Decode_tfvarsFile {RemoteState LockConfig} _ _.
Arguments FillDefaults {RemoteState LockConfig} _ _.
Arguments Validate {RemoteState LockConfig} _ _.

(** ** Merge of the extra arguments *)

(** The inner loop of [mergeExtraArgs]:
    [for i, parent := range result { if parent.Name == child.Name ... }],
    started at index [i]; the index of the first entry with that name. *)
Fixpoint findParent (name : string) (result : list TerraformExtraArguments)
    (i : nat) : option nat :=
  match result with
  | [] => None
  | parent :: rest =>
      if String.eqb (Name parent) name then Some i
      else findParent name rest (S i)
  end.

(** One iteration of the outer loop, for one [child]: [result[i] = child]
    at the index the inner loop stopped at (always within bounds), or
    [result = append(result, child)] when it ran to the end. *)
Definition mergeStep (result : list TerraformExtraArguments)
    (child : TerraformExtraArguments) : M (list TerraformExtraArguments) :=
  match findParent (Name child) result 0 with
  | Some i =>
      Logger_Printf ("extra_arguments '" +:+ Name child
                     +:+ "' from child overriding parent") ;;
      ret (<[i := child]> result)
  | None => ret (result ++ [child])
  end.

Fixpoint mergeLoop (childExtraArgs result : list TerraformExtraArguments)
    : M (list TerraformExtraArguments) :=
  match childExtraArgs with
  | [] => ret result
  | child :: rest =>
      result' ← mergeStep result child;
      mergeLoop rest result'
  end.

(** [mergeExtraArgs]; the value returned is the final [*parentExtraArgs]. *)
Definition mergeExtraArgs (terragruntOptions : TerragruntOptions)
    (childExtraArgs parentExtraArgs : list TerraformExtraArguments)
    : M (list TerraformExtraArguments) :=
  mergeLoop childExtraArgs parentExtraArgs.

(** ** The resolver *)

Section Resolver.
Context {RemoteState LockConfig : Type}.
Variable W : Collaborators RemoteState LockConfig.

(** *** Calls to the collaborators *)

Definition util_FileExists (path : string) : M bool :=
  emit (EvFileExists path);; ret (FileExists W path).

Definition util_ReadFileAsString (path : string) : M string :=
  emit (EvReadFile path);; lift (ReadFileAsString W path).

Definition resolveConfigString (s : string) (include : option IncludeConfig)
    (terragruntOptions : TerragruntOptions) : M string :=
  emit (EvInterpolate s);;
  lift (ResolveTerragruntConfigString W s include terragruntOptions).

(** *** Format detection and discovery *)

Definition DefaultConfigPath (workingDir : string) : M string :=
  let path := JoinPath W workingDir OldTerragruntConfigPath in
  found ← util_FileExists path;
  if found : bool then ret path
  else ret (JoinPath W workingDir DefaultTerragruntConfigPath).

Definition isOldTerragruntConfig (path : string) : bool :=
  HasSuffix path OldTerragruntConfigPath.

Definition containsTerragruntBlock (configString : string) : M bool :=
  emit (EvHclDecode configString);;
  match hcl_Decode_tfvarsFile W configString with
  | inl _ => ret false
  | inr terragruntConfig =>
      ret (match Terragrunt terragruntConfig with
            | Some _ => true
            | None => false
            end)
  end.

Definition isNewTerragruntConfig (path : string) : M bool :=
  configContents ← util_ReadFileAsString path;
  containsTerragruntBlock configContents.

Definition IsTerragruntConfigFile (path : string) : M bool :=
  found ← util_FileExists path;
  if negb found then ret false
  else if isOldTerragruntConfig path then ret true
  else isNewTerragruntConfig path.

(** The callback [FindConfigFilesInPath] hands to [filepath.Walk];
    [configFiles] is the captured slice, returned updated. *)
Definition walkFn (configFiles : list string) (entry : WalkEntry)
    : M (list string) :=
  match walk_err entry with
  | Some err => fail err
  | None =>
      if walk_IsDir entry then
        configPath ← DefaultConfigPath (walk_path entry);
        isTerragruntConfig ← IsTerragruntConfigFile configPath;
        if isTerragruntConfig : bool then ret (configFiles ++ [configPath])
        else ret configFiles
      else ret configFiles
  end.

(** [filepath.Walk]: the callback is run on each entry in turn and the
    walk stops at the first error the callback returns. The Go function
    returns [configFiles] next to the error. *)
Fixpoint walkLoop (entries : list WalkEntry) (configFiles : list string)
    (tr : list Event) : (list string * outcome unit) * list Event :=
  match entries with
  | [] => ((configFiles, Ret tt), tr)
  | entry :: rest =>
      match walkFn configFiles entry tr with
      | (Ret configFiles', tr') => walkLoop rest configFiles' tr'
      | (Fail err, tr') => ((configFiles, Fail err), tr')
      | (OutOfFuel, tr') => ((configFiles, OutOfFuel), tr')
      end
  end.

Definition FindConfigFilesInPath (rootPath : string) (tr : list Event)
    : (list string * outcome unit) * list Event :=
  walkLoop (Walk W rootPath) [] tr.

(** *** Decoding *)

Definition parseConfigStringAsTerragruntConfigFile
    (configString configPath : string)
    : M (option (terragruntConfigFile RemoteState LockConfig)) :=
  if isOldTerragruntConfig configPath then
    emit (EvHclDecode configString);;
    terragruntConfig ← lift (hcl_Decode_terragruntConfigFile W configString);
    ret (Some terragruntConfig)
  else
    emit (EvHclDecode configString);;
    tfvarsConfig ← lift (hcl_Decode_tfvarsFile W configString);
    ret (Terragrunt tfvarsConfig).

(** *** Conversion to the final configuration *)

Definition convertToTerragruntConfig
    (terragruntConfigFromFile : terragruntConfigFile RemoteState LockConfig)
    (terragruntOptions : TerragruntOptions)
    : M (TerragruntConfig RemoteState) :=
  match file_Lock terragruntConfigFromFile with
  | Some _ =>
      Logger_Printf
        ("WARNING: Found a lock configuration in the Terraform configuration at "
         +:+ TerragruntConfigPath terragruntOptions
         +:+ ". Terraform added native support for locking as of version 0.9.0, so this feature has been removed from Terragrunt and will have no effect. See your Terraform backend docs for how to configure locking: https://www.terraform.io/docs/backends/types/index.html.")
  | None => ret tt
  end;;
  remoteState ←
    match file_RemoteState terragruntConfigFromFile with
    | Some rs =>
        emit EvFillDefaults;;
        let rs' := FillDefaults W rs in
        emit EvValidate;;
        match Validate W rs' with
        | Some err => fail err
        | None => ret (Some rs')
        end
    | None => ret None
    end;
  ret {| Terraform := file_Terraform terragruntConfigFromFile;
          RemoteState_ := remoteState;
          Dependencies := file_Dependencies terragruntConfigFromFile |}.

(** *** Merge *)

(** The Go function updates [includedConfig] in place and returns it;
    here the updated record is returned. *)
Definition mergeConfigWithIncludedConfig
    (config : TerragruntConfig RemoteState)
    (includedConfig : option (TerragruntConfig RemoteState))
    (terragruntOptions : TerragruntOptions)
    : M (TerragruntConfig RemoteState) :=
  match includedConfig with
  | None => ret config
  | Some included =>
      let remoteState :=
        match RemoteState_ config with
        | Some rs => Some rs
        | None => RemoteState_ included
        end in
      terraform ←
        match Terraform config with
        | None => ret (Terraform included)
        | Some childTerraform =>
            match Terraform included with
            | None => ret (Some childTerraform)
            | Some parentTerraform =>
                let source :=
                  if negb (String.eqb (Source childTerraform) "")
                  then Source childTerraform
                  else Source parentTerraform in
                extraArgs ← mergeExtraArgs terragruntOptions
                              (ExtraArgs childTerraform)
                              (ExtraArgs parentTerraform);
                ret (Some {| ExtraArgs := extraArgs; Source := source |})
            end
        end;
      let dependencies :=
        match Dependencies config with
        | Some deps => Some deps
        | None => Dependencies included
        end in
      ret {| Terraform := terraform;
              RemoteState_ := remoteState;
              Dependencies := dependencies |}
  end.

(** *** Include resolution and the pipeline *)

Definition levelOf (include : option IncludeConfig) : Level :=
  match include with
  | None => TopLevel
  | Some _ => Included
  end.

(** [ParseConfigFile], [parseConfigString] and [parseIncludedConfig] are
    mutually recursive. Each is first written over the function it calls
    back into ([rec] stands for [ParseConfigFile]); the knot is tied by
    [ParseConfigFile] below. *)
Section Knot.
Variable rec : string → TerragruntOptions → option IncludeConfig
               → M (TerragruntConfig RemoteState).

Definition parseIncludedConfig_ (includedConfig : option IncludeConfig)
    (terragruntOptions : TerragruntOptions)
    : M (option (TerragruntConfig RemoteState)) :=
  match includedConfig with
  | None => ret None
  | Some inc =>
      if String.eqb (Path inc) "" then
        fail (IncludedConfigMissingPath
                (TerragruntConfigPath terragruntOptions))
      else
        resolvedIncludePath ←
          resolveConfigString (Path inc) None terragruntOptions;
        let resolvedIncludePath :=
          if negb (IsAbs W resolvedIncludePath)
          then JoinPath W
                 (Dir W (TerragruntConfigPath terragruntOptions))
                 resolvedIncludePath
          else resolvedIncludePath in
        config ← rec resolvedIncludePath terragruntOptions (Some inc);
        ret (Some config)
  end.

Definition parseConfigString_ (configString : string)
    (terragruntOptions : TerragruntOptions)
    (include : option IncludeConfig) (configPath : string)
    : M (TerragruntConfig RemoteState) :=
  let lvl := levelOf include in
  resolvedConfigString ←
    resolveConfigString configString include terragruntOptions;
  emit (EvStage lvl Decode);;
  terragruntConfigFile ←
    parseConfigStringAsTerragruntConfigFile resolvedConfigString configPath;
  emit (EvStage lvl NoBlockCheck);;
  match terragruntConfigFile with
  | None => fail (CouldNotResolveTerragruntConfigInFile configPath)
  | Some file =>
      emit (EvStage lvl ConvertToFinal);;
      config ← convertToTerragruntConfig file terragruntOptions;
      emit (EvStage lvl CheckInheritanceDepth);;
      match include, file_Include file with
      | Some inc, Some fileInclude =>
          fail (TooManyLevelsOfInheritance
                  (TerragruntConfigPath terragruntOptions)
                  (Path inc) (Path fileInclude))
      | _, _ =>
          emit (EvStage lvl ResolveParent);;
          includedConfig ←
            parseIncludedConfig_ (file_Include file) terragruntOptions;
          emit (EvStage lvl Merge);;
          mergeConfigWithIncludedConfig config includedConfig
            terragruntOptions
      end
  end.

Definition ParseConfigFile_ (configPath : string)
    (terragruntOptions : TerragruntOptions)
    (include : option IncludeConfig)
    : M (TerragruntConfig RemoteState) :=
  (if isOldTerragruntConfig configPath then
     Logger_Printf
       ("DEPRECATION WARNING: Found deprecated config file format "
        +:+ configPath
        +:+ ". This old config format will not be supported in the future. Please move your config files into a "
        +:+ DefaultTerragruntConfigPath +:+ " file.")
   else ret tt);;
  configString ← util_ReadFileAsString configPath;
  parseConfigString_ configString terragruntOptions include configPath.
End Knot.

(** [fuel] bounds the depth of nested [ParseConfigFile] calls. *)
Fixpoint ParseConfigFile (fuel : nat) (configPath : string)
    (terragruntOptions : TerragruntOptions)
    (include : option IncludeConfig)
    : M (TerragruntConfig RemoteState) :=
  match fuel with
  | O => λ tr, (OutOfFuel, tr)
  | S fuel' =>
      ParseConfigFile_ (ParseConfigFile fuel') configPath terragruntOptions
        include
  end.

Definition parseConfigString (fuel : nat) :=
  parseConfigString_ (ParseConfigFile fuel).

Definition parseIncludedConfig (fuel : nat) :=
  parseIncludedConfig_ (ParseConfigFile fuel).

Definition ReadTerragruntConfig (fuel : nat)
    (terragruntOptions : TerragruntOptions)
    : M (TerragruntConfig RemoteState) :=
  Logger_Printf ("Reading Terragrunt config file at "
                 +:+ TerragruntConfigPath terragruntOptions);;
  ParseConfigFile fuel (TerragruntConfigPath terragruntOptions)
    terragruntOptions None.

End Resolver.

(** ** Vocabulary of the properties *)

(** The value [mergeStep] computes, without its log line. *)
Definition mergeStepValue (result : list TerraformExtraArguments)
    (child : TerraformExtraArguments) : list TerraformExtraArguments :=
  match findParent (Name child) result 0 with
  | Some i => <[i := child]> result
  | None => result ++ [child]
  end.

(** The last group of [children] that carries [name], if any. *)
Definition lastNamed (name : string)
    (children : list TerraformExtraArguments)
    : option TerraformExtraArguments :=
  last (filter (λ c, Name c = name) children).

(** The elements of [l] that are not in [seen], each kept once, at its
    first occurrence. *)
Fixpoint firstOccurrences (seen l : list string) : list string :=
  match l with
  | [] => []
  | x :: l' =>
      if bool_decide (x ∈ seen) then firstOccurrences seen l'
      else x :: firstOccurrences (seen ++ [x]) l'
  end.

(** The names the child list introduces: names of child groups that no
    parent group carries, in the order of their first declaration. *)
Definition newNames (parent child : list TerraformExtraArguments)
    : list string :=
  firstOccurrences (Name <$> parent) (Name <$> child).

(** The parent entry at position [i], or the child group that takes its
    place: the last child group of the same name, when [i] is the first
    position of that name in the parent list. *)
Definition inPlace (parent child : list TerraformExtraArguments) (i : nat)
    (p : TerraformExtraArguments) : TerraformExtraArguments :=
  if bool_decide (findParent (Name p) parent 0 = Some i)
  then default p (lastNamed (Name p) child)
  else p.

(** The stages of the parse calls of level [lvl] that a trace records. *)
Definition stagesAt (lvl : Level) (tr : list Event) : list Stage :=
  omap (λ ev, match ev with
              | EvStage l st => if bool_decide (l = lvl) then Some st else None
              | _ => None
              end) tr.


(** The order in which [parseConfigString] goes through its stages. *)
Definition pipelineOrder : list Stage :=
  [Decode; NoBlockCheck; ConvertToFinal; CheckInheritanceDepth;
   ResolveParent; Merge].


(** A stretch of events without stage markers. *)
Definition noStages (evs : list Event) : Prop :=
  ∀ lvl, stagesAt lvl evs = [].

(** The text [s] of the file at [path] decodes, and to [file]: the
    configuration itself for a legacy file, the [terragrunt] block (or its
    absence) for a modern one. *)
Definition decodesTo {RemoteState LockConfig : Type}
    (W : Collaborators RemoteState LockConfig) (s path : string)
    (file : option (terragruntConfigFile RemoteState LockConfig)) : Prop :=
  if isOldTerragruntConfig path
  then ∃ f, hcl_Decode_terragruntConfigFile W s = inr f ∧ file = Some f
  else ∃ t, hcl_Decode_tfvarsFile W s = inr t ∧ file = Terragrunt t.

(** The remote state of [file], if it has one, validates once its defaults
    are filled in. *)
Definition remoteStateValid {RemoteState LockConfig : Type}
    (W : Collaborators RemoteState LockConfig)
    (file : terragruntConfigFile RemoteState LockConfig) : Prop :=
  ∀ rs, file_RemoteState file = Some rs → Validate W (FillDefaults W rs) = None.

(** A directory entry of a walk whose directory holds neither the legacy
    nor the default configuration file, or an entry that is no directory. *)
Definition lacksConfigFile {RemoteState LockConfig : Type}
    (W : Collaborators RemoteState LockConfig) (entry : WalkEntry) : Prop :=
  walk_err entry = None ∧
  (walk_IsDir entry = true →
   FileExists W (JoinPath W (walk_path entry) OldTerragruntConfigPath) = false ∧
   FileExists W (JoinPath W (walk_path entry) DefaultTerragruntConfigPath) = false).

(** The files a trace records as read, in the order they were read. *)
Definition readsOf (tr : list Event) : list string :=
  omap (λ ev, match ev with EvReadFile path => Some path | _ => None end) tr.

(** The configuration a decoded file is converted to when its remote state
    validates: the remote state with its defaults filled in, the rest as
    decoded. *)
Definition converted {RemoteState LockConfig : Type}
    (W : Collaborators RemoteState LockConfig)
    (file : terragruntConfigFile RemoteState LockConfig)
    : TerragruntConfig RemoteState :=
  {| Terraform := file_Terraform file;
     RemoteState_ := FillDefaults W <$> file_RemoteState file;
     Dependencies := file_Dependencies file |}.

(** Where an include whose path resolves to [resolved] is looked up: the
    path itself if absolute, else the path joined to the directory of the
    configuration path of the options. *)
Definition includeTarget {RemoteState LockConfig : Type}
    (W : Collaborators RemoteState LockConfig)
    (terragruntOptions : TerragruntOptions) (resolved : string) : string :=
  if IsAbs W resolved then resolved
  else JoinPath W (Dir W (TerragruntConfigPath terragruntOptions)) resolved.

(** A file that is read, interpolated and decoded without error, to a
    configuration whose remote state validates. *)
Definition loadsAs {RemoteState LockConfig : Type}
    (W : Collaborators RemoteState LockConfig)
    (path : string) (terragruntOptions : TerragruntOptions)
    (include : option IncludeConfig)
    (file : terragruntConfigFile RemoteState LockConfig) : Prop :=
  ∃ contents resolved,
    ReadFileAsString W path = inr contents
    ∧ ResolveTerragruntConfigString W contents include terragruntOptions
      = inr resolved
    ∧ decodesTo W resolved path (Some file)
    ∧ remoteStateValid W file.

(** ** A small world to run the resolver in

    Remote state is a backend name (valid when non-empty), file contents
    are decoded by table, interpolation is the identity. *)
Module Demo.

Definition group (name : string) (commands : list string)
    : TerraformExtraArguments :=
  {| Name := name; Arguments := []; RequiredVarFiles := [];
     OptionalVarFiles := []; Commands := commands |}.

Definition File : Type := terragruntConfigFile string unit.

Definition childOf (parentPath : string) : File :=
  {| file_Terraform :=
       Some {| ExtraArgs := [group "common" ["apply"]]; Source := "" |};
     file_Include := Some {| Path := parentPath |};
     file_Lock := None;
     file_RemoteState := None;
     file_Dependencies := None |}.

Definition parentFile : File :=
  {| file_Terraform :=
       Some {| ExtraArgs := [group "common" ["plan"];
                              group "only-parent" ["apply"]];
               Source := "git::https://x" |};
     file_Include := None;
     file_Lock := None;
     file_RemoteState := Some "s3";
     file_Dependencies := None |}.

(** A parent that itself includes a grandparent, with a remote state of
    the given backend. *)
Definition chainedFile (backend : string) : File :=
  {| file_Terraform := None;
     file_Include := Some {| Path := "/root.tfvars" |};
     file_Lock := None;
     file_RemoteState := Some backend;
     file_Dependencies := None |}.

Definition decodeTable : list (string * option File) :=
  [("child", Some (childOf "/live/terraform.tfvars"));
   ("relative-child", Some (childOf "parent.tfvars"));
   ("chain-child", Some (childOf "/chain/terraform.tfvars"));
   ("empty-path-child", Some (childOf ""));
   ("parent", Some parentFile);
   ("chained", Some (chainedFile "s3"));
   ("chained-invalid", Some (chainedFile ""));
   ("plain-vars", None)].

Definition lookup {A} (key : string) (table : list (string * A)) : option A :=
  (λ found, snd (snd found)) <$> list_find (λ kv, fst kv = key) table.

Definition decodeTfvars (s : string)
    : error + tfvarsFileWithTerragruntConfig string unit :=
  match lookup s decodeTable with
  | Some block => inr {| Terragrunt := block |}
  | None => inl (CollaboratorError "hcl: parse error")
  end.

Definition decodeFile (s : string) : error + File :=
  match lookup s decodeTable with
  | Some (Some file) => inr file
  | _ => inl (CollaboratorError "hcl: parse error")
  end.

Definition disk : list (string * string) :=
  [("/live/app/terraform.tfvars", "child");
   ("/live/terraform.tfvars", "parent");
   ("/rel/terraform.tfvars", "relative-child");
   ("/rel/parent.tfvars", "parent");
   ("/chain/app/terraform.tfvars", "chain-child");
   ("/chain/terraform.tfvars", "chained");
   ("/both/.terragrunt", "parent");
   ("/both/terraform.tfvars", "parent");
   ("/vars/terraform.tfvars", "plain-vars")].

Definition readFile (path : string) : error + string :=
  match lookup path disk with
  | Some contents => inr contents
  | None => inl (CollaboratorError "open: no such file or directory")
  end.

Definition world : Collaborators string unit :=
  {| JoinPath := λ dir name, dir +:+ "/" +:+ name;
     FileExists := λ path, bool_decide (path ∈ disk.*1);
     ReadFileAsString := readFile;
     IsAbs := String.prefix "/";
     Dir := λ path,
       String.substring 0
         (String.length path - String.length (lastElement path) - 1) path;
     Walk := λ root,
       [ {| walk_path := root; walk_IsDir := true; walk_err := None |};
         {| walk_path := root +:+ "/empty"; walk_IsDir := true;
            walk_err := None |};
         {| walk_path := root +:+ "/empty/notes.txt"; walk_IsDir := false;
            walk_err := None |} ];
     ResolveTerragruntConfigString := λ s _ _, inr s;
     hcl_Decode_terragruntConfigFile := decodeFile;
     hcl_Decode_tfvarsFile := decodeTfvars;
     FillDefaults := λ rs, rs;
     Validate := λ rs,
       if String.eqb rs ""
       then Some (CollaboratorError "remote_state: backend is missing")
       else None |}.

Definition options (path : string) : TerragruntOptions :=
  {| TerragruntConfigPath := path |}.

End Demo.


(** The demo world with a walk that fails at its second entry, as when a
    directory cannot be listed. *)
Module DemoWalk.

Definition entries : list WalkEntry :=
  [ {| walk_path := "/live"; walk_IsDir := true; walk_err := None |};
    {| walk_path := "/live/locked"; walk_IsDir := true;
       walk_err := Some (CollaboratorError "open /live/locked: permission denied") |};
    {| walk_path := "/live/app"; walk_IsDir := true; walk_err := None |} ].

Definition world : Collaborators string unit :=
  {| JoinPath := JoinPath Demo.world;
     FileExists := FileExists Demo.world;
     ReadFileAsString := ReadFileAsString Demo.world;
     IsAbs := IsAbs Demo.world;
     Dir := Dir Demo.world;
     Walk := λ _, entries;
     ResolveTerragruntConfigString := ResolveTerragruntConfigString Demo.world;
     hcl_Decode_terragruntConfigFile :=
       hcl_Decode_terragruntConfigFile Demo.world;
     hcl_Decode_tfvarsFile := hcl_Decode_tfvarsFile Demo.world;
     FillDefaults := FillDefaults Demo.world;
     Validate := Validate Demo.world |}.

End DemoWalk.

(** The demo world with one more file, whose text is not HCL. *)
Module DemoGarbled.

Definition world : Collaborators string unit :=
  {| JoinPath := JoinPath Demo.world;
     FileExists := λ path,
       String.eqb path "/garbled/terraform.tfvars" || FileExists Demo.world path;
     ReadFileAsString := λ path,
       if String.eqb path "/garbled/terraform.tfvars" then inr "{{{"
       else ReadFileAsString Demo.world path;
     IsAbs := IsAbs Demo.world;
     Dir := Dir Demo.world;
     Walk := Walk Demo.world;
     ResolveTerragruntConfigString := ResolveTerragruntConfigString Demo.world;
     hcl_Decode_terragruntConfigFile :=
       hcl_Decode_terragruntConfigFile Demo.world;
     hcl_Decode_tfvarsFile := hcl_Decode_tfvarsFile Demo.world;
     FillDefaults := FillDefaults Demo.world;
     Validate := Validate Demo.world |}.

End DemoGarbled.

(** * Properties *)

(** ** Strings *)

Lemma append_cons (c : ascii) (s t : string) :
  String c s +:+ t = String c (s +:+ t).
Proof. reflexivity. Qed.

Lemma length_append (s t : string) :
  String.length (s +:+ t) = String.length s + String.length t.
Proof.
  induction s as [|c s IH]; [done|].
  rewrite append_cons. simpl. by rewrite IH.
Qed.

Lemma substring_all (s : string) :
  String.substring 0 (String.length s) s = s.
Proof. induction s as [|c s IH]; simpl; [done | by rewrite IH]. Qed.

Lemma substring_skip_prefix (p s : string) (n : nat) :
  String.substring (String.length p) n (p +:+ s) = String.substring 0 n s.
Proof.
  induction p as [|c p IH]; [done|].
  rewrite append_cons. simpl. apply IH.
Qed.

Lemma substring_split (s : string) (k : nat) :
  k ≤ String.length s →
  s = String.substring 0 k s
      +:+ String.substring k (String.length s - k) s.
Proof.
  revert k. induction s as [|c s IH]; intros [|k] Hk; simpl in *; try lia.
  - done.
  - by rewrite substring_all.
  - rewrite append_cons. f_equal. apply IH. lia.
Qed.

(** [strings.HasSuffix] holds exactly of the strings that end in [suffix]. *)
Lemma HasSuffix_spec (s suffix : string) :
  HasSuffix s suffix = true ↔ ∃ prefix, s = prefix +:+ suffix.
Proof.
  unfold HasSuffix. rewrite andb_true_iff, Nat.leb_le, String.eqb_eq. split.
  - intros [Hlen Hsub].
    exists (String.substring 0 (String.length s - String.length suffix) s).
    rewrite (substring_split s (String.length s - String.length suffix))
      at 1 by lia.
    f_equal. rewrite <- Hsub at 3. f_equal. lia.
  - intros [prefix ->]. rewrite length_append. split; [lia|].
    replace (String.length prefix + String.length suffix
             - String.length suffix) with (String.length prefix) by lia.
    by rewrite substring_skip_prefix, substring_all.
Qed.

Lemma lastElement_suffix (path : string) :
  ∃ prefix, path = prefix +:+ lastElement path.
Proof.
  induction path as [|c rest [prefix IH]]; simpl.
  - by exists "".
  - destruct (Ascii.eqb c "/").
    + exists (String c prefix). rewrite append_cons. by rewrite <- IH.
    + case_bool_decide.
      * exists (String c prefix). rewrite append_cons. by rewrite <- IH.
      * by exists "".
Qed.

(** ** Format detection *)

(** C6, as amended: [isOldTerragruntConfig] classifies a path as legacy
    exactly when the path string ends in [.terragrunt]; it looks at the
    path alone. In particular a path whose last element is exactly
    [.terragrunt] is legacy. *)
Theorem C6_isOldTerragruntConfig_suffix (path : string) :
  (isOldTerragruntConfig path = true
   ↔ ∃ prefix, path = prefix +:+ OldTerragruntConfigPath)
  ∧ (lastElement path = OldTerragruntConfigPath
     → isOldTerragruntConfig path = true).
Proof.
  unfold isOldTerragruntConfig. split; [apply HasSuffix_spec|].
  intros Hlast. apply HasSuffix_spec. rewrite <- Hlast.
  apply lastElement_suffix.
Qed.

Lemma C6_isOldTerragruntConfig_suffix_witness :
  lastElement "/live/app/.terragrunt" = OldTerragruntConfigPath
  ∧ isOldTerragruntConfig "/live/app/.terragrunt" = true.
Proof.
  split; [reflexivity|].
  apply (C6_isOldTerragruntConfig_suffix "/live/app/.terragrunt").
  reflexivity.
Defined.

(** C6, as stated, fails: [prod.terragrunt] is classified as legacy although
    its name is not the legacy file name. *)
Lemma C6_legacy_name_not_exact :
  ¬ (isOldTerragruntConfig "/live/prod.terragrunt" = true
     ↔ lastElement "/live/prod.terragrunt" = OldTerragruntConfigPath).
Proof.
  intros [Hname _]. specialize (Hname eq_refl). vm_compute in Hname.
  discriminate Hname.
Qed.

(** ** Running computations *)

Lemma bind_run {A B} (m : M A) (f : A → M B) (tr : list Event) :
  (m ≫= f) tr
  = match m tr with
    | (Ret a, tr') => f a tr'
    | (Fail e, tr') => (Fail e, tr')
    | (OutOfFuel, tr') => (OutOfFuel, tr')
    end.
Proof. reflexivity. Qed.

(** ** The keyed-list merge of the extra arguments *)

Implicit Types (acc parent child : list TerraformExtraArguments).
Implicit Types (c p : TerraformExtraArguments).

Lemma findParent_list_find (name : string) acc (k : nat) :
  findParent name acc k
  = (λ found, k + found.1) <$> list_find (λ p, Name p = name) acc.
Proof.
  revert k. induction acc as [|p acc IH]; intros k; simpl; [done|].
  destruct (String.eqb_spec (Name p) name) as [Heq|Hne].
  - rewrite decide_True by done. simpl. f_equal. lia.
  - rewrite decide_False by done. rewrite IH.
    destruct (list_find _ acc) as [[i x]|]; simpl; [f_equal; lia | done].
Qed.

(** The inner loop stops at the first entry that carries the name. *)
Lemma findParent_Some (name : string) acc (i : nat) :
  findParent name acc 0 = Some i
  ↔ ∃ p, acc !! i = Some p ∧ Name p = name
         ∧ ∀ j q, acc !! j = Some q → j < i → Name q ≠ name.
Proof.
  rewrite findParent_list_find. split.
  - destruct (list_find _ acc) as [[j x]|] eqn:Hfind; [|done].
    simpl. intros [= <-]. apply list_find_Some in Hfind. by exists x.
  - intros (p & Hp & Hname & Hfirst).
    assert (list_find (λ p, Name p = name) acc = Some (i, p)) as ->; [|done].
    apply list_find_Some. naive_solver.
Qed.

Lemma findParent_None (name : string) acc :
  findParent name acc 0 = None ↔ name ∉ Name <$> acc.
Proof.
  rewrite findParent_list_find, fmap_None, list_find_None, Forall_forall.
  rewrite list_elem_of_fmap. split.
  - intros Hall (p & -> & Hp). by apply (Hall p).
  - intros Hnot p Hp Hname. apply Hnot. by exists p.
Qed.

(** Whether a position is the first one of its name depends on the names
    up to that position only. *)
Lemma findParent_names_1 (name : string) acc acc' (i : nat) :
  (∀ j, j ≤ i → Name <$> (acc !! j) = Name <$> (acc' !! j)) →
  findParent name acc 0 = Some i → findParent name acc' 0 = Some i.
Proof.
  intros Hsame (p & Hp & Hname & Hfirst)%findParent_Some.
  apply findParent_Some.
  pose proof (Hsame i (le_n _)) as Hi. rewrite Hp in Hi.
  destruct (acc' !! i) as [p'|] eqn:Hp'; [|done].
  injection Hi as Hi. exists p'. split_and!; [done | congruence |].
  intros j q Hq Hj. pose proof (Hsame j ltac:(lia)) as Hj'.
  rewrite Hq in Hj'. destruct (acc !! j) as [q'|] eqn:Hq'; [|done].
  injection Hj' as Hj'. rewrite <- Hj'. by eapply Hfirst.
Qed.

Lemma findParent_names (name : string) acc acc' (i : nat) :
  i < length acc →
  Name <$> acc = take (length acc) (Name <$> acc') →
  findParent name acc 0 = Some i ↔ findParent name acc' 0 = Some i.
Proof.
  intros Hi Hnames.
  assert (∀ j, j ≤ i → Name <$> (acc !! j) = Name <$> (acc' !! j))
    as Hsame.
  { intros j Hj. rewrite <- !list_lookup_fmap, Hnames.
    rewrite lookup_take_lt by lia. done. }
  split; apply findParent_names_1; [done|]. intros j Hj. by rewrite Hsame.
Qed.

Lemma stagesAt_app (lvl : Level) (evs1 evs2 : list Event) :
  stagesAt lvl (evs1 ++ evs2) = stagesAt lvl evs1 ++ stagesAt lvl evs2.
Proof. apply omap_app. Qed.

Lemma noStages_app (evs1 evs2 : list Event) :
  noStages evs1 → noStages evs2 → noStages (evs1 ++ evs2).
Proof. intros H1 H2 lvl. by rewrite stagesAt_app, H1, H2. Qed.

Lemma mergeStep_value acc c (tr : list Event) :
  ∃ evs, mergeStep acc c tr = (Ret (mergeStepValue acc c), tr ++ evs)
         ∧ noStages evs.
Proof.
  unfold mergeStep, mergeStepValue.
  destruct (findParent (Name c) acc 0).
  - by eexists [_].
  - exists []. by rewrite app_nil_r.
Qed.

(** The loop always returns, with the fold of its steps. *)
Lemma mergeLoop_value child acc (tr : list Event) :
  ∃ evs, mergeLoop child acc tr
         = (Ret (foldl mergeStepValue acc child), tr ++ evs)
         ∧ noStages evs.
Proof.
  revert acc tr. induction child as [|c child IH]; intros acc tr; simpl.
  - exists []. by rewrite app_nil_r.
  - rewrite bind_run. destruct (mergeStep_value acc c tr) as (evs1 & -> & H1).
    destruct (IH (mergeStepValue acc c) (tr ++ evs1)) as (evs2 & -> & H2).
    exists (evs1 ++ evs2). rewrite app_assoc. split; [done|].
    by apply noStages_app.
Qed.

(** A step keeps the names in place and adds a name only if it is new. *)
Lemma mergeStepValue_names acc c :
  Name <$> mergeStepValue acc c
  = (Name <$> acc)
    ++ (if bool_decide (Name c ∈ Name <$> acc) then [] else [Name c]).
Proof.
  unfold mergeStepValue.
  destruct (findParent (Name c) acc 0) as [i|] eqn:Hfind.
  - rewrite bool_decide_true.
    + apply findParent_Some in Hfind as (p & Hp & Hname & _).
      rewrite list_fmap_insert, app_nil_r. apply list_insert_id.
      by rewrite list_lookup_fmap, Hp, <- Hname.
    + destruct (decide (Name c ∈ Name <$> acc)) as [|Hnot]; [done|].
      apply findParent_None in Hnot. congruence.
  - rewrite bool_decide_false by by apply findParent_None.
    by rewrite fmap_app.
Qed.

(** What a step leaves at a position of the list it started from. *)
Lemma mergeStepValue_lookup acc c (i : nat) p :
  acc !! i = Some p →
  mergeStepValue acc c !! i
  = Some (if bool_decide (findParent (Name c) acc 0 = Some i) then c else p).
Proof.
  intros Hp. unfold mergeStepValue.
  destruct (findParent (Name c) acc 0) as [k|] eqn:Hfind.
  - case_bool_decide as Hk.
    + injection Hk as ->. apply list_lookup_insert_eq. by eapply lookup_lt_Some.
    + rewrite list_lookup_insert_ne by congruence. done.
  - rewrite bool_decide_false by done. by apply lookup_app_l_Some.
Qed.

Lemma lastNamed_nil (name : string) : lastNamed name [] = None.
Proof. done. Qed.

Lemma lastNamed_cons (name : string) c child :
  lastNamed name (c :: child)
  = match lastNamed name child with
    | Some x => Some x
    | None => if bool_decide (Name c = name) then Some c else None
    end.
Proof.
  unfold lastNamed. rewrite filter_cons. case_decide as Hc.
  - rewrite bool_decide_true by done.
    destruct (filter _ child) as [|x l] eqn:Hf; [done|].
    rewrite last_cons. by destruct (last (x :: l)) eqn:Hl.
  - rewrite bool_decide_false by done. by destruct (last _).
Qed.

Lemma lastNamed_cons_ne (name : string) c child :
  Name c ≠ name → lastNamed name (c :: child) = lastNamed name child.
Proof.
  intros Hne. rewrite lastNamed_cons, bool_decide_false by done.
  by destruct (lastNamed name child).
Qed.

Lemma firstOccurrences_not_seen (seen l : list string) (n : string) :
  n ∈ firstOccurrences seen l → n ∉ seen.
Proof.
  revert seen. induction l as [|x l IH]; intros seen; simpl.
  - by intros ?%elem_of_nil.
  - case_bool_decide as Hx; [by apply IH|].
    intros [->|Hin%IH]%elem_of_cons; [done|].
    intros ?. apply Hin, elem_of_app. by left.
Qed.

(** The names of the merged list: the parent's names, then the new ones. *)
Lemma merged_names child acc :
  Name <$> foldl mergeStepValue acc child
  = (Name <$> acc) ++ newNames acc child.
Proof.
  unfold newNames. revert acc.
  induction child as [|c child IH]; intros acc; simpl.
  - by rewrite app_nil_r.
  - rewrite IH, mergeStepValue_names.
    case_bool_decide; [by rewrite app_nil_r | by rewrite <- app_assoc].
Qed.

Lemma mergeStepValue_take_names acc c :
  Name <$> acc = take (length acc) (Name <$> mergeStepValue acc c).
Proof.
  rewrite mergeStepValue_names.
  rewrite <- (length_fmap Name acc). by rewrite take_app_length.
Qed.

(** Every position of the parent list keeps an entry of the same name: the
    parent's own, or the last child group of that name at the first
    position of the name. *)
Lemma merged_in_place child acc (i : nat) p :
  acc !! i = Some p →
  foldl mergeStepValue acc child !! i = Some (inPlace acc child i p).
Proof.
  revert acc p. induction child as [|c child IH]; intros acc p Hp; simpl.
  - unfold inPlace. rewrite lastNamed_nil. by case_bool_decide.
  - pose proof (mergeStepValue_lookup acc c i p Hp) as Hstep.
    rewrite (IH _ _ Hstep). f_equal. clear IH Hstep.
    assert (i < length acc) as Hi by by eapply lookup_lt_Some.
    destruct (decide (findParent (Name c) acc 0 = Some i)) as [Hc|Hc].
    + (* [c] overrides position [i] *)
      rewrite bool_decide_true by done. unfold inPlace.
      pose proof Hc as (q & Hq & Hname & _)%findParent_Some.
      assert (q = p) as -> by congruence.
      rewrite Hname, lastNamed_cons, (bool_decide_true (Name c = Name c)) by done.
      rewrite (bool_decide_ext _ (findParent (Name c) acc 0 = Some i)).
      2:{ symmetry. apply findParent_names; [done|].
          apply mergeStepValue_take_names. }
      rewrite !bool_decide_true by done.
      by destruct (lastNamed (Name c) child).
    + rewrite bool_decide_false by done. unfold inPlace.
      rewrite (bool_decide_ext _ (findParent (Name p) acc 0 = Some i)).
      2:{ symmetry. apply findParent_names; [done|].
          apply mergeStepValue_take_names. }
      case_bool_decide as Hfirst; [|done].
      rewrite lastNamed_cons_ne; [done|]. intros Heq. apply Hc. congruence.
Qed.

(** The entries past the parent's length: one per new name, in the order
    of first declaration, each the last child group of its name. *)
Lemma merged_new child acc (j : nat) (n : string) :
  newNames acc child !! j = Some n →
  foldl mergeStepValue acc child !! (length acc + j) = lastNamed n child
  ∧ is_Some (lastNamed n child).
Proof.
  intros Hj.
  assert (foldl mergeStepValue acc child !! (length acc + j)
          = lastNamed n child) as Hlookup.
  { revert acc j Hj. unfold newNames.
    induction child as [|c child IH]; intros acc j Hj; simpl in *; [done|].
    assert (Name c ≠ n → lastNamed n (c :: child) = lastNamed n child)
      as Hother by (intros; by apply lastNamed_cons_ne).
    pose proof (mergeStepValue_names acc c) as Hnames.
    case_bool_decide as Hseen.
    - rewrite app_nil_r in Hnames. rewrite <- Hnames in Hj.
      rewrite Hother.
      + rewrite <- (IH _ _ Hj). f_equal.
        rewrite <- !(length_fmap Name), Hnames. done.
      + intros <-. eapply firstOccurrences_not_seen; [|exact Hseen].
        rewrite <- Hnames in *. by eapply list_elem_of_lookup_2.
    - rewrite <- Hnames in Hj.
      assert (length (mergeStepValue acc c) = S (length acc)) as Hlen.
      { rewrite <- !(length_fmap Name), Hnames, length_app. simpl. lia. }
      destruct j as [|j]; simpl in Hj.
      + injection Hj as <-. rewrite Nat.add_0_r.
        assert (mergeStepValue acc c !! length acc = Some c) as Hc.
        { unfold mergeStepValue.
          assert (findParent (Name c) acc 0 = None) as ->
            by by apply findParent_None.
          apply list_lookup_middle. done. }
        rewrite (merged_in_place _ _ _ _ Hc). unfold inPlace.
        rewrite bool_decide_true.
        * rewrite lastNamed_cons, bool_decide_true by done.
          by destruct (lastNamed (Name c) child).
        * apply findParent_Some. exists c. split_and!; [done..|].
          intros k q Hq Hk Hname. apply Hseen.
          rewrite <- Hname. apply list_elem_of_fmap. exists q. split; [done|].
          assert (acc !! k = Some q) as Hq'.
          { rewrite <- Hq. unfold mergeStepValue.
            assert (findParent (Name c) acc 0 = None) as ->
              by by apply findParent_None.
            symmetry. by apply lookup_app_l. }
          by eapply list_elem_of_lookup_2.
      + rewrite Hother.
        * rewrite <- (IH _ _ Hj). f_equal. lia.
        * intros <-. eapply firstOccurrences_not_seen.
          { by eapply list_elem_of_lookup_2. }
          rewrite Hnames. apply elem_of_app. right. by apply list_elem_of_singleton. }
  split; [done|]. rewrite <- Hlookup. apply lookup_lt_is_Some.
  rewrite <- (length_fmap Name (foldl _ _ _)), merged_names, length_app.
  rewrite length_fmap. apply lookup_lt_Some in Hj. lia.
Qed.

Lemma lastNamed_None (name : string) child :
  name ∉ Name <$> child → lastNamed name child = None.
Proof.
  induction child as [|c child IH]; [done|].
  rewrite fmap_cons, not_elem_of_cons. intros [Hne Hnot].
  rewrite lastNamed_cons_ne by done. by apply IH.
Qed.

(** C1: [mergeExtraArgs] always returns. Taking the child groups in
    declaration order ([childs ++ [c]] is handled as [childs], then [c]), a
    group whose name is carried by an entry of the list merged so far
    replaces the first such entry at its position, and any other group is
    appended. So in the result every position of the parent list holds a
    group of the name it held before (the parent's own group where no child
    group has that name, the overriding child group otherwise), and the
    groups after them are those of the names the child introduces, in the
    order the child first declares them, each name once. *)
Theorem C1_mergeExtraArgs_keyed_merge (terragruntOptions : TerragruntOptions)
    child parent (tr : list Event) :
  ∃ result tr',
    mergeExtraArgs terragruntOptions child parent tr = (Ret result, tr')
    (* one more child group: replaced in place, or appended *)
    ∧ (∀ c, ∃ result' tr'',
         mergeExtraArgs terragruntOptions (child ++ [c]) parent tr
         = (Ret result', tr'')
         ∧ ((∃ i q, result !! i = Some q ∧ Name q = Name c
                    ∧ (∀ j q', result !! j = Some q' → j < i → Name q' ≠ Name c)
                    ∧ result' = <[i := c]> result)
            ∨ ((Name c ∉ Name <$> result) ∧ result' = result ++ [c])))
    (* the order of the names *)
    ∧ Name <$> result = (Name <$> parent) ++ newNames parent child
    (* the parent's positions *)
    ∧ (∀ i p, parent !! i = Some p →
         result !! i = Some (inPlace parent child i p)
         ∧ Name (inPlace parent child i p) = Name p
         ∧ (Name p ∉ Name <$> child → result !! i = Some p))
    (* the groups the child introduces *)
    ∧ (∀ j n, newNames parent child !! j = Some n →
         (n ∉ Name <$> parent)
         ∧ ∃ c, lastNamed n child = Some c ∧ Name c = n
                ∧ result !! (length parent + j) = Some c).
Proof.
  unfold mergeExtraArgs.
  destruct (mergeLoop_value child parent tr) as (evs & Hrun & _).
  exists (foldl mergeStepValue parent child), (tr ++ evs). split_and!.
  - done.
  - intros c.
    destruct (mergeLoop_value (child ++ [c]) parent tr) as (evs' & -> & _).
    eexists _, _. split; [done|]. rewrite foldl_snoc.
    set (result := foldl mergeStepValue parent child). unfold mergeStepValue.
    destruct (findParent (Name c) result 0) as [i|] eqn:Hfind.
    + left. apply findParent_Some in Hfind as (q & Hq & Hname & Hfirst).
      by exists i, q.
    + right. by apply findParent_None in Hfind.
  - apply merged_names.
  - intros i p Hp.
    assert (Name (inPlace parent child i p) = Name p) as Hname.
    { unfold inPlace. case_bool_decide; [|done].
      destruct (lastNamed (Name p) child) as [c|] eqn:Hlast; [|done].
      apply last_Some_elem_of, list_elem_of_filter in Hlast. by destruct Hlast. }
    split_and!; [by apply merged_in_place | done |].
    intros Hnot. rewrite (merged_in_place _ _ _ _ Hp). unfold inPlace.
    rewrite lastNamed_None by done. by case_bool_decide.
  - intros j n Hj. split.
    + eapply firstOccurrences_not_seen. by eapply list_elem_of_lookup_2.
    + destruct (merged_new _ _ _ _ Hj) as [Hlookup [c Hc]].
      exists c. split_and!; [done | | by rewrite Hlookup].
      apply last_Some_elem_of, list_elem_of_filter in Hc. by destruct Hc.
Qed.

Lemma C1_mergeExtraArgs_keyed_merge_witness :
  ∃ result tr',
    mergeExtraArgs (Demo.options "/live/app/terraform.tfvars")
      [Demo.group "common" ["apply"]; Demo.group "extra" ["destroy"]]
      [Demo.group "common" ["plan"]; Demo.group "only-parent" ["apply"]] []
    = (Ret result, tr')
    ∧ result !! 0 = Some (Demo.group "common" ["apply"])
    ∧ result !! 1 = Some (Demo.group "only-parent" ["apply"])
    ∧ result !! 2 = Some (Demo.group "extra" ["destroy"]).
Proof.
  destruct (C1_mergeExtraArgs_keyed_merge
              (Demo.options "/live/app/terraform.tfvars")
              [Demo.group "common" ["apply"]; Demo.group "extra" ["destroy"]]
              [Demo.group "common" ["plan"]; Demo.group "only-parent" ["apply"]]
              [])
    as (result & tr' & Hrun & _ & _ & Hparent & Hnew).
  exists result, tr'. split_and!.
  - exact Hrun.
  - exact (proj1 (Hparent 0 (Demo.group "common" ["plan"]) eq_refl)).
  - exact (proj1 (Hparent 1 (Demo.group "only-parent" ["apply"]) eq_refl)).
  - destruct (Hnew 0 "extra" eq_refl) as (_ & c & Hc & _ & Hlookup).
    vm_compute in Hc. injection Hc as <-. exact Hlookup.
Defined.

(** ** The merge of two configurations *)

Section MergeProperties.
Context {RemoteState : Type}.
Implicit Types (config included : TerragruntConfig RemoteState).

(** C4: with no included configuration the merge returns the child's
    configuration as it is, and does nothing else. *)
Theorem C4_merge_nil_identity config
    (terragruntOptions : TerragruntOptions) (tr : list Event) :
  mergeConfigWithIncludedConfig config None terragruntOptions tr
  = (Ret config, tr).
Proof. reflexivity. Qed.

(** C2: when child and parent both have a [Terraform] block, the merge
    returns a configuration whose [Source] is the parent's if the child's
    is empty and the child's otherwise. *)
Theorem C2_merged_source config included
    (childTerraform parentTerraform : TerraformConfig)
    (terragruntOptions : TerragruntOptions) (tr : list Event) :
  Terraform config = Some childTerraform →
  Terraform included = Some parentTerraform →
  ∃ merged mergedTerraform tr',
    mergeConfigWithIncludedConfig config (Some included) terragruntOptions tr
    = (Ret merged, tr')
    ∧ Terraform merged = Some mergedTerraform
    ∧ (Source childTerraform = ""
       → Source mergedTerraform = Source parentTerraform)
    ∧ (Source childTerraform ≠ ""
       → Source mergedTerraform = Source childTerraform).
Proof.
  intros Hchild Hparent. unfold mergeConfigWithIncludedConfig.
  rewrite Hchild, Hparent, !bind_run. unfold mergeExtraArgs.
  destruct (mergeLoop_value (ExtraArgs childTerraform)
              (ExtraArgs parentTerraform) tr) as (evs & -> & _).
  eexists _, _, _. split; [reflexivity|]. split; [reflexivity|]. simpl.
  destruct (String.eqb_spec (Source childTerraform) ""); simpl; by split.
Qed.

End MergeProperties.

Lemma C2_merged_source_witness :
  ∃ merged mergedTerraform tr',
    mergeConfigWithIncludedConfig
      {| Terraform := Some {| ExtraArgs := []; Source := "" |};
         RemoteState_ := @None string; Dependencies := None |}
      (Some {| Terraform := Some {| ExtraArgs := []; Source := "git::https://x" |};
               RemoteState_ := None; Dependencies := None |})
      (Demo.options "/live/app/terraform.tfvars") []
    = (Ret merged, tr')
    ∧ Terraform merged = Some mergedTerraform
    ∧ Source mergedTerraform = "git::https://x".
Proof.
  destruct (C2_merged_source
              {| Terraform := Some {| ExtraArgs := []; Source := "" |};
                 RemoteState_ := @None string; Dependencies := None |}
              {| Terraform := Some {| ExtraArgs := []; Source := "git::https://x" |};
                 RemoteState_ := None; Dependencies := None |}
              _ _ (Demo.options "/live/app/terraform.tfvars") []
              eq_refl eq_refl)
    as (merged & mergedTerraform & tr' & Hrun & Hterraform & Hempty & _).
  exists merged, mergedTerraform, tr'. split_and!; [done..|].
  apply Hempty. reflexivity.
Defined.

(** ** Format detection and discovery *)

Section DiscoveryProperties.
Context {RemoteState LockConfig : Type}.
Variable W : Collaborators RemoteState LockConfig.

(** C9: the default configuration path of a directory is the legacy file
    name joined to the directory if that file exists, and the default
    file name joined to the directory otherwise; so the legacy file wins
    when both files exist. Only the legacy path is looked up. *)
Theorem C9_DefaultConfigPath_legacy_first (workingDir : string)
    (tr : list Event) :
  let legacy := JoinPath W workingDir ".terragrunt" in
  let modern := JoinPath W workingDir "terraform.tfvars" in
  let tr' := tr ++ [EvFileExists legacy] in
  (FileExists W legacy = true
   → DefaultConfigPath W workingDir tr = (Ret legacy, tr'))
  ∧ (FileExists W legacy = false
     → DefaultConfigPath W workingDir tr = (Ret modern, tr'))
  ∧ (FileExists W legacy = true → FileExists W modern = true
     → DefaultConfigPath W workingDir tr = (Ret legacy, tr')).
Proof.
  unfold DefaultConfigPath, util_FileExists. rewrite !bind_run. simpl.
  change (JoinPath W workingDir OldTerragruntConfigPath)
    with (JoinPath W workingDir ".terragrunt").
  split_and!; [intros -> | intros -> | intros -> _]; reflexivity.
Qed.

Lemma DefaultConfigPath_run (workingDir : string) (tr : list Event) :
  DefaultConfigPath W workingDir tr
  = (Ret (if FileExists W (JoinPath W workingDir OldTerragruntConfigPath)
          then JoinPath W workingDir OldTerragruntConfigPath
          else JoinPath W workingDir DefaultTerragruntConfigPath),
     tr ++ [EvFileExists (JoinPath W workingDir OldTerragruntConfigPath)]).
Proof.
  unfold DefaultConfigPath, util_FileExists. rewrite !bind_run. simpl.
  by destruct (FileExists W _).
Qed.

Lemma IsTerragruntConfigFile_missing (path : string) (tr : list Event) :
  FileExists W path = false →
  IsTerragruntConfigFile W path tr = (Ret false, tr ++ [EvFileExists path]).
Proof.
  intros Hmissing. unfold IsTerragruntConfigFile, util_FileExists.
  rewrite !bind_run. simpl. by rewrite Hmissing.
Qed.

(** The callback leaves the list alone at an entry that is no directory
    or whose directory has no configuration file, and returns no error. *)
Lemma walkFn_skips (configFiles : list string) (entry : WalkEntry)
    (tr : list Event) :
  lacksConfigFile W entry →
  ∃ tr', walkFn W configFiles entry tr = (Ret configFiles, tr').
Proof.
  intros [Herr Hdir]. unfold walkFn. rewrite Herr.
  destruct (walk_IsDir entry); [|by eexists].
  destruct (Hdir eq_refl) as [Hlegacy Hmodern].
  rewrite bind_run, DefaultConfigPath_run, Hlegacy, bind_run.
  rewrite IsTerragruntConfigFile_missing by done. by eexists.
Qed.

Lemma walkLoop_skips (entries : list WalkEntry) (configFiles : list string)
    (tr : list Event) :
  Forall (lacksConfigFile W) entries →
  ∃ tr', walkLoop W entries configFiles tr = ((configFiles, Ret tt), tr').
Proof.
  intros Hall. revert tr.
  induction Hall as [|entry entries Hentry _ IH]; intros tr; simpl.
  - by eexists.
  - destruct (walkFn_skips configFiles entry tr Hentry) as [tr1 ->].
    apply IH.
Qed.

(** C10: for a path at which no file exists, [IsTerragruntConfigFile]
    returns [(false, nil)] after the existence test alone. So the callback
    of the discovery walk returns no error and adds nothing at a directory
    without a default configuration file, and a walk that meets only such
    directories returns the empty list and no error. *)
Theorem C10_missing_file_is_not_a_config (path : string) (tr : list Event) :
  FileExists W path = false →
  IsTerragruntConfigFile W path tr = (Ret false, tr ++ [EvFileExists path])
  ∧ (∀ configFiles entry tr0,
       lacksConfigFile W entry →
       ∃ tr', walkFn W configFiles entry tr0 = (Ret configFiles, tr'))
  ∧ (∀ rootPath tr0,
       Forall (lacksConfigFile W) (Walk W rootPath) →
       ∃ tr', FindConfigFilesInPath W rootPath tr0 = (([], Ret tt), tr')).
Proof.
  intros Hmissing. split_and!.
  - by apply IsTerragruntConfigFile_missing.
  - intros configFiles entry tr0. apply walkFn_skips.
  - intros rootPath tr0. apply walkLoop_skips.
Qed.

End DiscoveryProperties.

Lemma C9_DefaultConfigPath_legacy_first_witness :
  FileExists Demo.world (JoinPath Demo.world "/both" ".terragrunt") = true
  ∧ FileExists Demo.world (JoinPath Demo.world "/both" "terraform.tfvars") = true
  ∧ DefaultConfigPath Demo.world "/both" []
    = (Ret "/both/.terragrunt", [EvFileExists "/both/.terragrunt"]).
Proof.
  split_and!; [reflexivity..|].
  apply (C9_DefaultConfigPath_legacy_first Demo.world "/both" []);
    reflexivity.
Defined.

Lemma C10_missing_file_is_not_a_config_witness :
  FileExists Demo.world "/live/empty/terraform.tfvars" = false
  ∧ IsTerragruntConfigFile Demo.world "/live/empty/terraform.tfvars" []
    = (Ret false, [EvFileExists "/live/empty/terraform.tfvars"]).
Proof.
  split; [reflexivity|].
  apply (C10_missing_file_is_not_a_config Demo.world
           "/live/empty/terraform.tfvars" []).
  reflexivity.
Defined.

(** ** The pipeline *)

Lemma emit_bind_run {A} (ev : Event) (k : M A) (tr : list Event) :
  (emit ev ;; k) tr = k (tr ++ [ev]).
Proof. reflexivity. Qed.


Section PipelineProperties.
Context {RemoteState LockConfig : Type}.
Variable W : Collaborators RemoteState LockConfig.
Implicit Types (file : terragruntConfigFile RemoteState LockConfig).
Implicit Types (rec : string → TerragruntOptions → option IncludeConfig
                      → M (TerragruntConfig RemoteState)).
Implicit Types (terragruntOptions : TerragruntOptions).
Implicit Types (include : option IncludeConfig).

Lemma resolveConfigString_run (s : string) include terragruntOptions
    (tr : list Event) :
  resolveConfigString W s include terragruntOptions tr
  = (match ResolveTerragruntConfigString W s include terragruntOptions with
     | inl e => Fail e
     | inr resolved => Ret resolved
     end, tr ++ [EvInterpolate s]).
Proof.
  unfold resolveConfigString. rewrite emit_bind_run.
  by destruct (ResolveTerragruntConfigString W s include terragruntOptions).
Qed.

(** Decoding calls the HCL decoder once and does nothing else. *)
Lemma decode_run (s path : string) (tr : list Event) :
  ∃ r, parseConfigStringAsTerragruntConfigFile W s path tr
       = (r, tr ++ [EvHclDecode s])
       ∧ (∀ block, r = Ret block ↔ decodesTo W s path block)
       ∧ r ≠ OutOfFuel.
Proof.
  unfold parseConfigStringAsTerragruntConfigFile, decodesTo.
  destruct (isOldTerragruntConfig path); rewrite emit_bind_run, bind_run.
  - destruct (hcl_Decode_terragruntConfigFile W s) as [e|f]; simpl.
    + eexists. split_and!; [done | | done]. intros block. split; [done|].
      by intros (f & [=] & _).
    + eexists. split_and!; [done | | done]. intros block. split.
      * intros [= <-]. by exists f.
      * by intros (f' & [= <-] & ->).
  - destruct (hcl_Decode_tfvarsFile W s) as [e|t]; simpl.
    + eexists. split_and!; [done | | done]. intros block. split; [done|].
      by intros (f & [=] & _).
    + eexists. split_and!; [done | | done]. intros block. split.
      * intros [= <-]. by exists t.
      * by intros (t' & [= <-] & ->).
Qed.

(** The conversion may log, fill in defaults and validate; it fails only
    if the validation does. *)
Lemma convert_run file terragruntOptions (tr : list Event) :
  ∃ r evs,
    convertToTerragruntConfig W file terragruntOptions tr = (r, tr ++ evs)
    ∧ noStages evs
    ∧ (remoteStateValid W file → ∃ config, r = Ret config)
    ∧ (∀ rs err, file_RemoteState file = Some rs →
         Validate W (FillDefaults W rs) = Some err → r = Fail err)
    ∧ r ≠ OutOfFuel.
Proof.
  unfold convertToTerragruntConfig, remoteStateValid, Logger_Printf.
  rewrite bind_run.
  assert (∃ evs0, (match file_Lock file with
                   | Some _ => emit (EvLog _)
                   | None => ret tt
                   end) tr = (Ret tt, tr ++ evs0) ∧ noStages evs0)
    as (evs0 & -> & Hevs0).
  { destruct (file_Lock file).
    - by eexists [_].
    - exists []. by rewrite app_nil_r. }
  rewrite bind_run.
  destruct (file_RemoteState file) as [rs|].
  - rewrite !emit_bind_run.
    destruct (Validate W (FillDefaults W rs)) as [err|] eqn:Hvalidate.
    + eexists _, (evs0 ++ [EvFillDefaults; EvValidate]). split_and!.
      * unfold fail. by rewrite <- !app_assoc.
      * by apply noStages_app.
      * intros Hvalid. specialize (Hvalid rs eq_refl). congruence.
      * intros rs' err' [= <-] Herr. congruence.
      * done.
    + eexists _, (evs0 ++ [EvFillDefaults; EvValidate]). split_and!.
      * unfold ret. by rewrite <- !app_assoc.
      * by apply noStages_app.
      * intros _. by eexists.
      * intros rs' err' [= <-] Herr. congruence.
      * done.
  - eexists _, evs0. split_and!; [done | done | by eexists | done | done].
Qed.

(** The merge always returns, logging overrides at most. *)
Lemma merge_run (config : TerragruntConfig RemoteState)
    (includedConfig : option (TerragruntConfig RemoteState))
    terragruntOptions (tr : list Event) :
  ∃ merged evs,
    mergeConfigWithIncludedConfig config includedConfig terragruntOptions tr
    = (Ret merged, tr ++ evs)
    ∧ noStages evs.
Proof.
  unfold mergeConfigWithIncludedConfig.
  destruct includedConfig as [included|].
  2:{ eexists _, []. by rewrite app_nil_r. }
  rewrite bind_run.
  destruct (Terraform config) as [childTerraform|].
  2:{ eexists _, []. by rewrite app_nil_r. }
  destruct (Terraform included) as [parentTerraform|].
  2:{ eexists _, []. by rewrite app_nil_r. }
  rewrite bind_run. unfold mergeExtraArgs.
  destruct (mergeLoop_value (ExtraArgs childTerraform)
              (ExtraArgs parentTerraform) tr) as (evs & -> & Hevs).
  by eexists _, evs.
Qed.

(** C5: an include with an empty path makes the include resolution fail
    with [IncludedConfigMissingPath], carrying the path of the including
    configuration. The trace is left as it was: the interpolation resolver
    is not called and no file is looked up or read. *)
Theorem C5_empty_include_path (fuel : nat) (inc : IncludeConfig)
    terragruntOptions (tr : list Event) :
  Path inc = "" →
  parseIncludedConfig W fuel (Some inc) terragruntOptions tr
  = (Fail (IncludedConfigMissingPath (TerragruntConfigPath terragruntOptions)),
     tr).
Proof.
  intros Hpath. unfold parseIncludedConfig, parseIncludedConfig_.
  by rewrite Hpath.
Qed.

(** C8: when the text of a modern-format file decodes but has no
    [terragrunt] block, the decoder returns [(nil, nil)] and the parse
    fails with [CouldNotResolveTerragruntConfigInFile], carrying the path
    of the file. *)
Theorem C8_block_not_found (fuel : nat) (configString resolved : string)
    terragruntOptions include (configPath : string)
    (tfvars : tfvarsFileWithTerragruntConfig RemoteState LockConfig)
    (tr : list Event) :
  isOldTerragruntConfig configPath = false →
  ResolveTerragruntConfigString W configString include terragruntOptions
  = inr resolved →
  hcl_Decode_tfvarsFile W resolved = inr tfvars →
  Terragrunt tfvars = None →
  (∀ tr0, parseConfigStringAsTerragruntConfigFile W resolved configPath tr0
          = (Ret None, tr0 ++ [EvHclDecode resolved]))
  ∧ (∃ tr', parseConfigString W fuel configString terragruntOptions include
              configPath tr
            = (Fail (CouldNotResolveTerragruntConfigInFile configPath), tr'))
  ∧ (ReadFileAsString W configPath = inr configString →
     ∃ tr', ParseConfigFile W (S fuel) configPath terragruntOptions include tr
            = (Fail (CouldNotResolveTerragruntConfigInFile configPath), tr')).
Proof.
  intros Hmodern Hresolve Hdecode Hblock.
  assert (∀ tr0, parseConfigStringAsTerragruntConfigFile W resolved
                   configPath tr0
                 = (Ret None, tr0 ++ [EvHclDecode resolved])) as Hnil.
  { intros tr0. unfold parseConfigStringAsTerragruntConfigFile.
    rewrite Hmodern, emit_bind_run, bind_run, Hdecode. simpl.
    by rewrite Hblock. }
  assert (∀ rec tr0, ∃ tr',
            parseConfigString_ W rec configString terragruntOptions include
              configPath tr0
            = (Fail (CouldNotResolveTerragruntConfigInFile configPath), tr'))
    as Hparse.
  { intros rec tr0. unfold parseConfigString_.
    rewrite bind_run, resolveConfigString_run, Hresolve.
    rewrite emit_bind_run, bind_run, Hnil, emit_bind_run. by eexists. }
  split_and!; [done | apply Hparse |].
  intros Hread. simpl. unfold ParseConfigFile_.
  rewrite Hmodern, bind_run. simpl. unfold util_ReadFileAsString.
  rewrite bind_run, emit_bind_run, Hread. simpl. apply Hparse.
Qed.

(** Closes a branch of a run: the trace is the initial one extended, and
    the stages among the new events are read off. *)
Ltac close_run :=
  eexists _, _; split; [rewrite <- ?app_assoc; reflexivity|];
  rewrite ?stagesAt_app;
  repeat match goal with
         | H : noStages _ |- _ => rewrite !H
         | H : stagesAt _ _ = _ |- _ => rewrite !H
         end;
  simpl;
  split_and!;
    [ by (eexists; reflexivity)
    | try done
    | first [ done | by intros [? ?] ]
    | try done ].

(** What [parseConfigString] records: its own stages follow
    [pipelineOrder], all of it when the parse succeeds; and a parse of an
    included file records no stage of the top level. [rec] is only asked
    for the latter. *)
Lemma parseConfigString_stages rec (configString : string)
    terragruntOptions include (configPath : string) (tr : list Event) :
  (∀ path o inc t, ∃ evs, (rec path o (Some inc) t).2 = t ++ evs
                          ∧ stagesAt TopLevel evs = []) →
  ∃ r evs,
    parseConfigString_ W rec configString terragruntOptions include
      configPath tr = (r, tr ++ evs)
    ∧ stagesAt (levelOf include) evs `prefix_of` pipelineOrder
    ∧ (∀ config, r = Ret config
         → stagesAt (levelOf include) evs = pipelineOrder)
    ∧ (is_Some include → stagesAt TopLevel evs = [])
    ∧ ((∀ path o inc t, (rec path o (Some inc) t).1 ≠ OutOfFuel)
       ∨ is_Some include → r ≠ OutOfFuel).
Proof.
  intros Hrec. unfold parseConfigString_.
  rewrite bind_run, resolveConfigString_run.
  destruct (ResolveTerragruntConfigString W configString include
              terragruntOptions) as [e|resolved].
  { exists (Fail e), [EvInterpolate configString].
    split_and!; [done | apply prefix_nil | done | done | done]. }
  rewrite emit_bind_run, bind_run.
  destruct (decode_run resolved configPath
              ((tr ++ [EvInterpolate configString])
               ++ [EvStage (levelOf include) Decode]))
    as (rd & -> & _ & Hrd).
  destruct rd as [[file|]|e|];
    [ | rewrite emit_bind_run; unfold fail
      | | ];
    [ | destruct include; close_run .. ].
  rewrite !emit_bind_run, bind_run.
  match goal with
  | |- context [convertToTerragruntConfig W ?f ?o ?t] =>
      destruct (convert_run f o t) as (rc & evc & -> & Hevc & _ & _ & Hrc)
  end.
  destruct rc as [config|e|]; [ | destruct include; close_run .. ].
  rewrite emit_bind_run.
  assert (∀ t included, ∃ r evs,
            (emit (EvStage (levelOf include) Merge);;
             mergeConfigWithIncludedConfig config included terragruntOptions) t
            = (Ret r, t ++ evs)
            ∧ stagesAt (levelOf include) evs = [Merge]
            ∧ (is_Some include → stagesAt TopLevel evs = [])) as Hmerge.
  { intros t included. rewrite emit_bind_run.
    destruct (merge_run config included terragruntOptions
                (t ++ [EvStage (levelOf include) Merge]))
      as (merged & evs & -> & Hevs).
    eexists _, _. split; [rewrite <- ?app_assoc; reflexivity|].
    rewrite !stagesAt_app, !Hevs. destruct include; simpl; [|done].
    split; [done|]. done. }
  assert (∀ t, ∃ r evs,
            (parseIncludedConfig_ W rec None terragruntOptions
             ≫= λ includedConfig,
                  emit (EvStage (levelOf include) Merge);;
                  mergeConfigWithIncludedConfig config includedConfig
                    terragruntOptions) t
            = (Ret r, t ++ evs)
            ∧ stagesAt (levelOf include) evs = [Merge]
            ∧ (is_Some include → stagesAt TopLevel evs = [])) as Hnone.
  { intros t. exact (Hmerge t None). }
  destruct include as [inc|];
    destruct (file_Include file) as [fileInclude|] eqn:Hinclude;
    cbn [levelOf] in *.
  - unfold fail. close_run.
  - rewrite emit_bind_run.
    match goal with
    | |- context [(_ ≫= _) ?t] =>
        destruct (Hnone t) as (r & evs & -> & Hown & Htop)
    end.
    specialize (Htop ltac:(by eexists)). close_run.
  - rewrite emit_bind_run, bind_run. unfold parseIncludedConfig_.
    destruct (String.eqb (Path fileInclude) ""); [unfold fail; close_run|].
    rewrite bind_run, resolveConfigString_run.
    destruct (ResolveTerragruntConfigString W (Path fileInclude) None
                terragruntOptions) as [e|resolvedIncludePath];
      [close_run|].
    rewrite bind_run.
    match goal with
    | |- context [rec ?path ?o (Some ?i) ?t] =>
        destruct (Hrec path o i t) as (evr & Hevr & Hquiet);
        destruct (rec path o (Some i) t) as [rr trr] eqn:Hrr
    end.
    simpl in Hevr. subst trr.
    destruct rr as [included|e|]; [|close_run..].
    2:{ intros [Hreturns|[? [=]]] _. by eapply Hreturns; rewrite Hrr. }
    unfold ret.
    match goal with
    | |- context [(_ ≫= _) ?t] =>
        destruct (Hmerge t (Some included)) as (r & evs & -> & Hown & _)
    end.
    close_run.
  - rewrite emit_bind_run.
    match goal with
    | |- context [(_ ≫= _) ?t] =>
        destruct (Hnone t) as (r & evs & -> & Hown & _)
    end.
    close_run.
Qed.

(** The parse of an included file, nested calls and all, records no stage
    of the top level. *)
Lemma ParseConfigFile_included_quiet (fuel : nat) (configPath : string)
    terragruntOptions (inc : IncludeConfig) (tr : list Event) :
  ∃ evs, (ParseConfigFile W fuel configPath terragruntOptions (Some inc) tr).2
         = tr ++ evs
         ∧ stagesAt TopLevel evs = [].
Proof.
  revert configPath terragruntOptions inc tr.
  induction fuel as [|fuel IH]; intros configPath terragruntOptions inc tr.
  { exists []. by rewrite app_nil_r. }
  simpl. unfold ParseConfigFile_, util_ReadFileAsString, Logger_Printf.
  rewrite bind_run.
  assert (∃ evs0, (if isOldTerragruntConfig configPath
                   then emit (EvLog _) else ret tt) tr
                  = (Ret tt, tr ++ evs0) ∧ noStages evs0)
    as (evs0 & -> & Hevs0).
  { destruct (isOldTerragruntConfig configPath).
    - by eexists [_].
    - exists []. by rewrite app_nil_r. }
  rewrite bind_run, emit_bind_run.
  destruct (ReadFileAsString W configPath) as [e|configString]; simpl.
  { eexists. split; [by rewrite <- app_assoc|].
    by rewrite stagesAt_app, Hevs0. }
  match goal with
  | |- context [parseConfigString_ W ?rec ?s ?o ?i ?p ?t] =>
      destruct (parseConfigString_stages rec s o i p t IH)
        as (r & evs & -> & _ & _ & Hquiet & _)
  end.
  eexists. split; [simpl; by rewrite <- !app_assoc|].
  rewrite !stagesAt_app, Hevs0, Hquiet; by eauto.
Qed.

(** The parse of an included file never calls back into
    [ParseConfigFile]: one unit of fuel is enough for it, and two for
    any parse. *)
Lemma ParseConfigFile_included_returns (fuel : nat) (configPath : string)
    terragruntOptions (inc : IncludeConfig) (tr : list Event) :
  (ParseConfigFile W (S fuel) configPath terragruntOptions (Some inc) tr).1
  ≠ OutOfFuel.
Proof.
  simpl. unfold ParseConfigFile_, util_ReadFileAsString, Logger_Printf.
  rewrite bind_run.
  destruct (isOldTerragruntConfig configPath);
    cbn [emit ret]; rewrite bind_run, emit_bind_run;
    (destruct (ReadFileAsString W configPath) as [e|configString];
     simpl; [done|]);
    match goal with
    | |- context [parseConfigString_ W ?rec ?s ?o ?i ?p ?t] =>
        destruct (parseConfigString_stages rec s o i p t
                    (ParseConfigFile_included_quiet fuel))
          as (r & evs & -> & _ & _ & _ & Hreturns)
    end;
    apply Hreturns; right; by eexists.
Qed.

Lemma ParseConfigFile_returns (fuel : nat) (configPath : string)
    terragruntOptions include (tr : list Event) :
  (ParseConfigFile W (S (S fuel)) configPath terragruntOptions include tr).1
  ≠ OutOfFuel.
Proof.
  cbn [ParseConfigFile].
  unfold ParseConfigFile_ at 1. unfold util_ReadFileAsString, Logger_Printf.
  rewrite bind_run.
  destruct (isOldTerragruntConfig configPath);
    cbn [emit ret]; rewrite bind_run, emit_bind_run;
    (destruct (ReadFileAsString W configPath) as [e|configString];
     simpl; [done|]);
    match goal with
    | |- context [parseConfigString_ W ?rec ?s ?o ?i ?p ?t] =>
        destruct (parseConfigString_stages rec s o i p t
                    (ParseConfigFile_included_quiet (S fuel)))
          as (r & evs & -> & _ & _ & _ & Hreturns)
    end;
    apply Hreturns; left; intros path o inc t;
    apply ParseConfigFile_included_returns.
Qed.


(** C3, as amended: when the parse of an included file (a non-nil include
    context) decodes a configuration that has an include of its own, and
    the remote state of that configuration, if any, validates, the parse
    fails with [TooManyLevelsOfInheritance] carrying the configuration
    path of the options, the path of the include context and the path of
    the decoded include. It stops at the depth check: no parent is
    resolved and nothing is merged. *)
Theorem C3_too_many_levels (fuel : nat) (configString resolved : string)
    terragruntOptions (inc fileInclude : IncludeConfig)
    (configPath : string) file (tr : list Event) :
  ResolveTerragruntConfigString W configString (Some inc) terragruntOptions
  = inr resolved →
  decodesTo W resolved configPath (Some file) →
  file_Include file = Some fileInclude →
  remoteStateValid W file →
  ∃ evs,
    parseConfigString W fuel configString terragruntOptions (Some inc)
      configPath tr
    = (Fail (TooManyLevelsOfInheritance
               (TerragruntConfigPath terragruntOptions)
               (Path inc) (Path fileInclude)),
       tr ++ evs)
    ∧ stagesAt Included evs
      = [Decode; NoBlockCheck; ConvertToFinal; CheckInheritanceDepth].
Proof.
  intros Hresolve Hdecode Hinclude Hvalid.
  unfold parseConfigString, parseConfigString_.
  rewrite bind_run, resolveConfigString_run, Hresolve.
  rewrite emit_bind_run, bind_run.
  match goal with
  | |- context [parseConfigStringAsTerragruntConfigFile W ?s ?p ?t] =>
      destruct (decode_run s p t) as (rd & -> & Hrd & _)
  end.
  apply Hrd in Hdecode as ->.
  rewrite !emit_bind_run, bind_run.
  match goal with
  | |- context [convertToTerragruntConfig W ?f ?o ?t] =>
      destruct (convert_run f o t) as (rc & evc & -> & Hevc & Hok & _ & _)
  end.
  destruct (Hok Hvalid) as [config ->].
  rewrite emit_bind_run, Hinclude. unfold fail. cbn [levelOf].
  eexists. split; [rewrite <- ?app_assoc; reflexivity|].
  by rewrite !stagesAt_app, Hevc.
Qed.

End PipelineProperties.

(** ** The properties at work in the demo world *)

Lemma C5_empty_include_path_witness :
  Path {| Path := "" |} = ""
  ∧ parseIncludedConfig Demo.world 0 (Some {| Path := "" |})
      (Demo.options "/live/app/terraform.tfvars") []
    = (Fail (IncludedConfigMissingPath "/live/app/terraform.tfvars"), []).
Proof.
  split; [reflexivity|].
  apply (C5_empty_include_path Demo.world 0 {| Path := "" |}
           (Demo.options "/live/app/terraform.tfvars") []).
  reflexivity.
Defined.

Lemma C8_block_not_found_witness :
  isOldTerragruntConfig "/vars/terraform.tfvars" = false
  ∧ hcl_Decode_tfvarsFile Demo.world "plain-vars"
    = inr {| Terragrunt := None |}
  ∧ ∃ tr', parseConfigString Demo.world 1 "plain-vars"
             (Demo.options "/vars/terraform.tfvars") None
             "/vars/terraform.tfvars" []
           = (Fail (CouldNotResolveTerragruntConfigInFile
                      "/vars/terraform.tfvars"), tr').
Proof.
  split; [reflexivity|]. split; [reflexivity|].
  apply (C8_block_not_found Demo.world 1 "plain-vars" "plain-vars"
           (Demo.options "/vars/terraform.tfvars") None
           "/vars/terraform.tfvars" {| Terragrunt := None |} []);
    reflexivity.
Defined.

Lemma C3_too_many_levels_witness :
  decodesTo Demo.world "chained" "/chain/terraform.tfvars"
    (Some (Demo.chainedFile "s3"))
  ∧ remoteStateValid Demo.world (Demo.chainedFile "s3")
  ∧ ∃ evs,
      parseConfigString Demo.world 0 "chained"
        (Demo.options "/chain/app/terraform.tfvars")
        (Some {| Path := "/chain/terraform.tfvars" |})
        "/chain/terraform.tfvars" []
      = (Fail (TooManyLevelsOfInheritance "/chain/app/terraform.tfvars"
                 "/chain/terraform.tfvars" "/root.tfvars"),
         [] ++ evs)
      ∧ stagesAt Included evs
        = [Decode; NoBlockCheck; ConvertToFinal; CheckInheritanceDepth].
Proof.
  assert (decodesTo Demo.world "chained" "/chain/terraform.tfvars"
            (Some (Demo.chainedFile "s3"))) as Hdecode.
  { exists {| Terragrunt := Some (Demo.chainedFile "s3") |}.
    split; reflexivity. }
  assert (remoteStateValid Demo.world (Demo.chainedFile "s3")) as Hvalid.
  { intros rs [= <-]. reflexivity. }
  split; [exact Hdecode|]. split; [exact Hvalid|].
  exact (C3_too_many_levels Demo.world 0 "chained" "chained"
           (Demo.options "/chain/app/terraform.tfvars")
           {| Path := "/chain/terraform.tfvars" |} {| Path := "/root.tfvars" |}
           "/chain/terraform.tfvars" (Demo.chainedFile "s3") []
           eq_refl Hdecode eq_refl Hvalid).
Defined.

(** C3, as stated, fails: the included file decodes to a configuration with
    an include of its own, yet the parse fails with the error of the
    remote-state validation, which runs before the depth check. *)
Lemma C3_validation_error_comes_first :
  let run :=
    parseConfigString Demo.world 2 "chained-invalid"
      (Demo.options "/chain/app/terraform.tfvars")
      (Some {| Path := "/chain/terraform.tfvars" |})
      "/chain/terraform.tfvars" [] in
  decodesTo Demo.world "chained-invalid" "/chain/terraform.tfvars"
    (Some (Demo.chainedFile ""))
  ∧ file_Include (Demo.chainedFile "") = Some {| Path := "/root.tfvars" |}
  ∧ run.1 = Fail (CollaboratorError "remote_state: backend is missing")
  ∧ run.1 ≠ Fail (TooManyLevelsOfInheritance "/chain/app/terraform.tfvars"
                    "/chain/terraform.tfvars" "/root.tfvars").
Proof.
  split_and!.
  - exists {| Terragrunt := Some (Demo.chainedFile "") |}. split; reflexivity.
  - reflexivity.
  - reflexivity.
  - vm_compute. discriminate.
Qed.



(** The merge scenario of the design: the child's [common] group replaces
    the parent's at position 0, [only-parent] stays at position 1 and the
    empty child source leaves the parent's source in place. *)
Example scenario_child_overrides_parent :
  (ReadTerragruntConfig Demo.world 2
     (Demo.options "/live/app/terraform.tfvars") []).1
  = Ret {| Terraform :=
             Some {| ExtraArgs := [Demo.group "common" ["apply"];
                                    Demo.group "only-parent" ["apply"]];
                     Source := "git::https://x" |};
           RemoteState_ := Some "s3";
           Dependencies := None |}.
Proof. reflexivity. Qed.

(** A child whose parent includes a grandparent is rejected, and the error
    names the child and both include paths. *)
Example scenario_grandparent_rejected :
  (ReadTerragruntConfig Demo.world 2
     (Demo.options "/chain/app/terraform.tfvars") []).1
  = Fail (TooManyLevelsOfInheritance "/chain/app/terraform.tfvars"
            "/chain/terraform.tfvars" "/root.tfvars").
Proof. reflexivity. Qed.

(** A modern-format file without the block is no configuration file, and
    the discovery leaves it out. *)
Example scenario_discovery_skips_plain_vars :
  (IsTerragruntConfigFile Demo.world "/vars/terraform.tfvars" []).1 = Ret false
  ∧ (FindConfigFilesInPath Demo.world "/vars" []).1 = ([], Ret tt)
  ∧ (FindConfigFilesInPath Demo.world "/live" []).1
    = (["/live/terraform.tfvars"], Ret tt).
Proof. split_and!; reflexivity. Qed.

(** * Further properties *)

(** ** The keyed-list merge, continued *)

Lemma elem_of_firstOccurrences (seen l : list string) (n : string) :
  n ∈ firstOccurrences seen l ↔ n ∈ l ∧ n ∉ seen.
Proof.
  revert seen. induction l as [|x l IH]; intros seen; simpl.
  - split; [by intros ?%elem_of_nil | by intros [?%elem_of_nil _]].
  - case_bool_decide as Hx.
    + rewrite IH, elem_of_cons. split.
      * intros [Hin Hnot]. split; [by right | done].
      * intros [[->|Hin] Hnot]; [done | by split].
    + rewrite !elem_of_cons, IH, not_elem_of_app, not_elem_of_cons.
      split.
      * intros [->|(Hin & Hnot & _)]; [by split; [left|] | by split; [right|]].
      * intros [[->|Hin] Hnot]; [by left|].
        destruct (decide (n = x)) as [->|Hne]; [by left|].
        right. split_and!; [done..|]. by intros ?%elem_of_nil.
Qed.

Lemma NoDup_firstOccurrences (seen l : list string) :
  NoDup (firstOccurrences seen l).
Proof.
  revert seen. induction l as [|x l IH]; intros seen; simpl.
  - constructor.
  - case_bool_decide as Hx; [apply IH|]. constructor; [|apply IH].
    intros [_ Hnot]%elem_of_firstOccurrences. apply Hnot, elem_of_app.
    right. by apply list_elem_of_singleton.
Qed.

Lemma firstOccurrences_all_seen (seen l : list string) :
  (∀ x, x ∈ l → x ∈ seen) → firstOccurrences seen l = [].
Proof.
  induction l as [|x l IH]; intros Hall; simpl; [done|].
  rewrite bool_decide_true by (apply Hall; by left).
  apply IH. intros y Hy. apply Hall. by right.
Qed.

Lemma findParent_Some_is_Some (name : string) acc (i : nat) :
  findParent name acc 0 = Some i → is_Some (acc !! i).
Proof. intros (p & Hp & _)%findParent_Some. by exists p. Qed.

Lemma mergeStepValue_elem_of acc c (x : TerraformExtraArguments) :
  x ∈ mergeStepValue acc c → x ∈ acc ∨ x = c.
Proof.
  unfold mergeStepValue.
  destruct (findParent (Name c) acc 0) as [i|] eqn:Hfind.
  - intros (j & Hj)%list_elem_of_lookup_1.
    destruct (decide (i = j)) as [->|Hne].
    + rewrite list_lookup_insert_eq in Hj by by eapply lookup_lt_is_Some_1,
        findParent_Some_is_Some.
      right. congruence.
    + rewrite list_lookup_insert_ne in Hj by done.
      left. by eapply list_elem_of_lookup_2.
  - intros [?| ->%list_elem_of_singleton]%elem_of_app; [by left | by right].
Qed.

Lemma merged_elem_of child acc (x : TerraformExtraArguments) :
  x ∈ foldl mergeStepValue acc child → x ∈ acc ∨ x ∈ child.
Proof.
  revert acc. induction child as [|c child IH]; intros acc; simpl.
  - by left.
  - intros Hx. apply IH in Hx as [Hx|Hx]; [|right; by right].
    apply mergeStepValue_elem_of in Hx as [Hx|Hx]; [by left|].
    right. rewrite Hx. by left.
Qed.

(** X1: the merged list carries exactly the names of the parent and of the
    child lists, and each of its groups is a group of the parent or of the
    child: nothing is lost by name and nothing is made up. *)
Theorem mergeExtraArgs_membership (terragruntOptions : TerragruntOptions)
    child parent (tr : list Event) :
  ∃ result tr',
    mergeExtraArgs terragruntOptions child parent tr = (Ret result, tr')
    ∧ (∀ n, n ∈ Name <$> result ↔ n ∈ Name <$> parent ∨ n ∈ Name <$> child)
    ∧ (∀ x, x ∈ result → x ∈ parent ∨ x ∈ child).
Proof.
  unfold mergeExtraArgs.
  destruct (mergeLoop_value child parent tr) as (evs & -> & _).
  eexists _, _. split_and!; [done | | apply merged_elem_of].
  intros n. rewrite merged_names, elem_of_app. unfold newNames.
  rewrite elem_of_firstOccurrences.
  destruct (decide (n ∈ Name <$> parent)); tauto.
Qed.

(** X2: the merge keeps names unique: if no two parent groups share a name,
    no two groups of the merged list do, whatever the child list holds. *)
Theorem mergeExtraArgs_keeps_names_unique
    (terragruntOptions : TerragruntOptions) child parent (tr : list Event) :
  NoDup (Name <$> parent) →
  ∃ result tr',
    mergeExtraArgs terragruntOptions child parent tr = (Ret result, tr')
    ∧ NoDup (Name <$> result).
Proof.
  intros Hparent. unfold mergeExtraArgs.
  destruct (mergeLoop_value child parent tr) as (evs & -> & _).
  eexists _, _. split; [done|]. rewrite merged_names. apply NoDup_app.
  split_and!; [done | | apply NoDup_firstOccurrences].
  intros n Hn [_ Hnot]%elem_of_firstOccurrences. done.
Qed.

Lemma mergeExtraArgs_keeps_names_unique_witness :
  ∃ result tr',
    mergeExtraArgs (Demo.options "/live/app/terraform.tfvars")
      [Demo.group "a" ["plan"]; Demo.group "b" []; Demo.group "a" ["apply"]]
      [Demo.group "b" ["destroy"]] []
    = (Ret result, tr')
    ∧ NoDup (Name <$> result).
Proof.
  apply (mergeExtraArgs_keeps_names_unique
           (Demo.options "/live/app/terraform.tfvars")
           [Demo.group "a" ["plan"]; Demo.group "b" []; Demo.group "a" ["apply"]]
           [Demo.group "b" ["destroy"]] []).
  apply NoDup_singleton.
Defined.

(** The first group of a name in the merged list is the last child group
    of that name, when the child has one. *)
Lemma merged_child_wins child acc (n : string) (i : nat) c :
  lastNamed n child = Some c →
  findParent n (foldl mergeStepValue acc child) 0 = Some i →
  foldl mergeStepValue acc child !! i = Some c.
Proof.
  intros Hlast Hfind.
  pose proof Hfind as (q & Hq & Hname & _)%findParent_Some.
  destruct (decide (i < length acc)) as [Hi|Hi].
  - destruct (lookup_lt_is_Some_2 acc i Hi) as [p Hp].
    rewrite (merged_in_place child acc i p Hp) in Hq |- *.
    assert (findParent n acc 0 = Some i) as Hfirst.
    { eapply findParent_names; [exact Hi | | exact Hfind].
      rewrite merged_names, <- (length_fmap Name acc).
      by rewrite take_app_length. }
    assert (Name p = n) as Hp_name.
    { apply findParent_Some in Hfirst as (p' & Hp' & ? & _). congruence. }
    unfold inPlace. by rewrite Hp_name, bool_decide_true, Hlast.
  - assert (newNames acc child !! (i - length acc) = Some n) as Hnew.
    { assert ((Name <$> foldl mergeStepValue acc child) !! i = Some n) as Hn
        by by rewrite list_lookup_fmap, Hq, <- Hname.
      rewrite merged_names, lookup_app_r in Hn
        by (rewrite length_fmap; lia).
      by rewrite length_fmap in Hn. }
    destruct (merged_new child acc _ n Hnew) as [Hlookup _].
    replace (length acc + (i - length acc)) with i in Hlookup by lia.
    by rewrite Hlookup.
Qed.

(** X3: the child wins by name. For a name some child group carries, the
    merged list has a group of that name, and the first one is the last
    child group declared under that name. *)
Theorem mergeExtraArgs_child_wins (terragruntOptions : TerragruntOptions)
    child parent (tr : list Event) (n : string) c :
  lastNamed n child = Some c →
  ∃ result tr' i,
    mergeExtraArgs terragruntOptions child parent tr = (Ret result, tr')
    ∧ findParent n result 0 = Some i
    ∧ result !! i = Some c.
Proof.
  intros Hlast. unfold mergeExtraArgs.
  destruct (mergeLoop_value child parent tr) as (evs & -> & _).
  destruct (findParent n (foldl mergeStepValue parent child) 0) as [i|]
    eqn:Hfind.
  - eexists _, _, i. split_and!; [done..|]. by eapply merged_child_wins.
  - exfalso. apply findParent_None in Hfind. apply Hfind.
    rewrite merged_names, elem_of_app. unfold newNames.
    rewrite elem_of_firstOccurrences.
    assert (n ∈ Name <$> child) as Hin.
    { apply last_Some_elem_of, list_elem_of_filter in Hlast as [<- Hc].
      apply list_elem_of_fmap. by exists c. }
    destruct (decide (n ∈ Name <$> parent)); [by left | by right].
Qed.

Lemma mergeExtraArgs_child_wins_witness :
  ∃ result tr' i,
    mergeExtraArgs (Demo.options "/live/app/terraform.tfvars")
      [Demo.group "a" ["plan"]; Demo.group "b" []; Demo.group "a" ["apply"]]
      [Demo.group "b" ["destroy"]] []
    = (Ret result, tr')
    ∧ findParent "a" result 0 = Some i
    ∧ result !! i = Some (Demo.group "a" ["apply"]).
Proof.
  apply (mergeExtraArgs_child_wins
           (Demo.options "/live/app/terraform.tfvars")
           [Demo.group "a" ["plan"]; Demo.group "b" []; Demo.group "a" ["apply"]]
           [Demo.group "b" ["destroy"]] [] "a" (Demo.group "a" ["apply"])).
  reflexivity.
Defined.

(** X4: child groups under names that are all new and all different are
    appended as they are, after the parent's groups, and no override is
    logged. *)
Theorem mergeExtraArgs_all_new (terragruntOptions : TerragruntOptions)
    child parent (tr : list Event) :
  (∀ c, c ∈ child → Name c ∉ Name <$> parent) →
  NoDup (Name <$> child) →
  mergeExtraArgs terragruntOptions child parent tr
  = (Ret (parent ++ child), tr).
Proof.
  unfold mergeExtraArgs. revert parent tr.
  induction child as [|c child IH]; intros parent tr Hnew Hnodup; simpl.
  - by rewrite app_nil_r.
  - rewrite fmap_cons in Hnodup. apply NoDup_cons in Hnodup as [Hc Hnodup].
    rewrite bind_run. unfold mergeStep.
    assert (findParent (Name c) parent 0 = None) as ->.
    { apply findParent_None, Hnew. by left. }
    simpl. rewrite IH; [by rewrite <- app_assoc | | done].
    intros c' Hc'. rewrite fmap_app, not_elem_of_app. split.
    + apply Hnew. by right.
    + simpl. rewrite list_elem_of_singleton. intros Heq. apply Hc.
      rewrite <- Heq. apply list_elem_of_fmap. by exists c'.
Qed.

Lemma mergeExtraArgs_all_new_witness :
  mergeExtraArgs (Demo.options "/live/app/terraform.tfvars")
    [Demo.group "a" ["plan"]; Demo.group "b" []]
    [Demo.group "c" ["destroy"]] []
  = (Ret [Demo.group "c" ["destroy"]; Demo.group "a" ["plan"];
          Demo.group "b" []], []).
Proof.
  apply (mergeExtraArgs_all_new (Demo.options "/live/app/terraform.tfvars")
           [Demo.group "a" ["plan"]; Demo.group "b" []]
           [Demo.group "c" ["destroy"]] []).
  - intros c Hc. vm_compute.
    intros Hin%list_elem_of_singleton.
    apply elem_of_cons in Hc as [->|Hc]; [discriminate Hin|].
    apply list_elem_of_singleton in Hc as ->. discriminate Hin.
  - apply (bool_decide_unpack _). reflexivity.
Defined.

Lemma merged_idempotent child acc :
  foldl mergeStepValue (foldl mergeStepValue acc child) child
  = foldl mergeStepValue acc child.
Proof.
  set (merged := foldl mergeStepValue acc child).
  assert (∀ x, x ∈ Name <$> child → x ∈ Name <$> merged) as Hnames.
  { intros x Hx. unfold merged. rewrite merged_names, elem_of_app.
    unfold newNames. rewrite elem_of_firstOccurrences.
    destruct (decide (x ∈ Name <$> acc)); tauto. }
  assert (length (foldl mergeStepValue merged child) = length merged) as Hlen.
  { rewrite <- !(length_fmap Name), (merged_names child merged).
    unfold newNames. rewrite firstOccurrences_all_seen by done.
    by rewrite app_nil_r. }
  apply list_eq. intros i.
  destruct (merged !! i) as [p|] eqn:Hp.
  - rewrite (merged_in_place child merged i p Hp). f_equal.
    unfold inPlace. case_bool_decide as Hfirst; [|done].
    destruct (lastNamed (Name p) child) as [c|] eqn:Hlast; [|done].
    simpl. pose proof (merged_child_wins child acc _ i c Hlast Hfirst).
    unfold merged in Hp. congruence.
  - apply lookup_ge_None in Hp. apply lookup_ge_None. lia.
Qed.

(** X5: merging is idempotent: merging the same child list into the
    merged list once more changes nothing. *)
Theorem mergeExtraArgs_idempotent (terragruntOptions : TerragruntOptions)
    child parent (tr : list Event) :
  ∃ result tr1 tr2,
    mergeExtraArgs terragruntOptions child parent tr = (Ret result, tr1)
    ∧ mergeExtraArgs terragruntOptions child result tr1 = (Ret result, tr2).
Proof.
  unfold mergeExtraArgs.
  destruct (mergeLoop_value child parent tr) as (evs1 & Hrun1 & _).
  destruct (mergeLoop_value child (foldl mergeStepValue parent child)
              (tr ++ evs1)) as (evs2 & Hrun2 & _).
  eexists _, _, _. split; [exact Hrun1|].
  rewrite Hrun2. by rewrite merged_idempotent.
Qed.


(** X7: merging a child list in two batches, one after the other, is
    merging the whole list at once: same result, same notices. *)
Theorem mergeExtraArgs_batches (terragruntOptions : TerragruntOptions)
    (child1 child2 parent : list TerraformExtraArguments) (tr : list Event) :
  mergeExtraArgs terragruntOptions (child1 ++ child2) parent tr
  = (result ← mergeExtraArgs terragruntOptions child1 parent;
     mergeExtraArgs terragruntOptions child2 result) tr.
Proof.
  unfold mergeExtraArgs. revert parent tr.
  induction child1 as [|c child1 IH]; intros parent tr; simpl; [done|].
  rewrite !bind_run.
  destruct (mergeStep_value parent c tr) as (evs & -> & _).
  rewrite IH. by rewrite bind_run.
Qed.

(** ** The merge of two configurations, continued *)

Section MergeFieldProperties.
Context {RemoteState : Type}.
Implicit Types (config included : TerragruntConfig RemoteState).

(** X8: the merge with an included configuration never fails, and the
    remote state and the dependencies are taken whole: the child's where the
    child declares one, the parent's otherwise. *)
Theorem merge_takes_fields_whole config included
    (terragruntOptions : TerragruntOptions) (tr : list Event) :
  ∃ merged tr',
    mergeConfigWithIncludedConfig config (Some included) terragruntOptions tr
    = (Ret merged, tr')
    ∧ (∀ rs, RemoteState_ config = Some rs → RemoteState_ merged = Some rs)
    ∧ (RemoteState_ config = None
       → RemoteState_ merged = RemoteState_ included)
    ∧ (∀ deps, Dependencies config = Some deps
         → Dependencies merged = Some deps)
    ∧ (Dependencies config = None
       → Dependencies merged = Dependencies included).
Proof.
  unfold mergeConfigWithIncludedConfig. rewrite bind_run.
  assert (∃ terraform tr',
            (match Terraform config with
             | None => ret (Terraform included)
             | Some childTerraform =>
                 match Terraform included with
                 | None => ret (Some childTerraform)
                 | Some parentTerraform =>
                     extraArgs ← mergeExtraArgs terragruntOptions
                                   (ExtraArgs childTerraform)
                                   (ExtraArgs parentTerraform);
                     ret (Some {| ExtraArgs := extraArgs;
                                  Source :=
                                    if negb (String.eqb
                                               (Source childTerraform) "")
                                    then Source childTerraform
                                    else Source parentTerraform |})
                 end
             end) tr = (Ret terraform, tr')) as (terraform & tr' & ->).
  { destruct (Terraform config) as [childTerraform|]; [|by eexists _, _].
    destruct (Terraform included) as [parentTerraform|]; [|by eexists _, _].
    rewrite bind_run. unfold mergeExtraArgs.
    destruct (mergeLoop_value (ExtraArgs childTerraform)
                (ExtraArgs parentTerraform) tr) as (evs & -> & _).
    by eexists _, _. }
  eexists _, _. split; [reflexivity|]. simpl.
  split_and!; try (by intros ? ->); by intros ->.
Qed.

(** X9: a child that declares nothing leaves the included configuration
    as it is, and an included configuration that declares nothing gives
    back the child's; neither logs anything. *)
Theorem merge_with_empty_side config included
    (terragruntOptions : TerragruntOptions) (tr : list Event) :
  let empty : TerragruntConfig RemoteState :=
    {| Terraform := None; RemoteState_ := None; Dependencies := None |} in
  mergeConfigWithIncludedConfig empty (Some included) terragruntOptions tr
  = (Ret included, tr)
  ∧ mergeConfigWithIncludedConfig config (Some empty) terragruntOptions tr
    = (Ret config, tr).
Proof.
  split.
  - by destruct included.
  - destruct config as [[terraform|] [rs|] [deps|]]; reflexivity.
Qed.

End MergeFieldProperties.

(** ** Conversion to the final configuration *)

Section ConversionProperties.
Context {RemoteState LockConfig : Type}.
Variable W : Collaborators RemoteState LockConfig.
Implicit Types (file : terragruntConfigFile RemoteState LockConfig).

(** X10: the conversion fails exactly when the file has a remote state
    that does not validate once its defaults are filled in, and then with
    the validator's error; otherwise it returns the file's settings with
    the defaults filled in. A lock block only adds a warning in front: the
    outcome, and what follows in the trace, are those of the file without
    the block. *)
Theorem convert_outcome file (terragruntOptions : TerragruntOptions)
    (tr : list Event) :
  let unlocked :=
    {| file_Terraform := file_Terraform file;
       file_Include := file_Include file;
       file_Lock := None;
       file_RemoteState := file_RemoteState file;
       file_Dependencies := file_Dependencies file |} in
  (convertToTerragruntConfig W file terragruntOptions tr).1
  = match file_RemoteState file with
    | Some rs =>
        match Validate W (FillDefaults W rs) with
        | Some err => Fail err
        | None => Ret (converted W file)
        end
    | None => Ret (converted W file)
    end
  ∧ (file_Lock file = None →
     convertToTerragruntConfig W file terragruntOptions tr
     = convertToTerragruntConfig W unlocked terragruntOptions tr)
  ∧ (is_Some (file_Lock file) →
     ∃ warning,
       convertToTerragruntConfig W file terragruntOptions tr
       = convertToTerragruntConfig W unlocked terragruntOptions
           (tr ++ [EvLog warning])).
Proof.
  unfold convertToTerragruntConfig, converted, Logger_Printf. simpl.
  split_and!.
  - rewrite bind_run.
    destruct (file_Lock file); cbn [emit ret]; rewrite bind_run;
      (destruct (file_RemoteState file) as [rs|]; [|done]);
      rewrite !emit_bind_run;
      by destruct (Validate W (FillDefaults W rs)).
  - by intros ->.
  - intros [lock ->]. eexists. by rewrite bind_run.
Qed.

End ConversionProperties.

Lemma convert_outcome_witness :
  is_Some (file_Lock
             {| file_Terraform := None; file_Include := None;
                file_Lock := Some tt; file_RemoteState := Some "";
                file_Dependencies := None |})
  ∧ (convertToTerragruntConfig Demo.world
       {| file_Terraform := None; file_Include := None;
          file_Lock := Some tt; file_RemoteState := Some "";
          file_Dependencies := None |}
       (Demo.options "/live/terraform.tfvars") []).1
    = Fail (CollaboratorError "remote_state: backend is missing").
Proof.
  split; [by eexists|].
  exact (proj1 (convert_outcome Demo.world
                  {| file_Terraform := None; file_Include := None;
                     file_Lock := Some tt; file_RemoteState := Some "";
                     file_Dependencies := None |}
                  (Demo.options "/live/terraform.tfvars") [])).
Defined.

(** ** Format detection and discovery, continued *)

Section DetectionProperties.
Context {RemoteState LockConfig : Type}.
Variable W : Collaborators RemoteState LockConfig.

(** X11: an existing file under a legacy name is a configuration file on
    the strength of its name: it is neither read nor decoded. *)
Theorem IsTerragruntConfigFile_legacy (path : string) (tr : list Event) :
  FileExists W path = true →
  isOldTerragruntConfig path = true →
  IsTerragruntConfigFile W path tr = (Ret true, tr ++ [EvFileExists path]).
Proof.
  intros Hexists Hlegacy. unfold IsTerragruntConfigFile, util_FileExists.
  rewrite bind_run, emit_bind_run. cbn [ret]. by rewrite Hexists, Hlegacy.
Qed.

(** X12: an existing file under another name is read and decoded. A read
    error is returned as the error; text that does not decode is no error
    but makes the file not a configuration file; text that decodes makes it
    one exactly when the [terragrunt] block is there. *)
Theorem IsTerragruntConfigFile_modern (path : string) (tr : list Event) :
  FileExists W path = true →
  isOldTerragruntConfig path = false →
  (∀ err, ReadFileAsString W path = inl err →
     IsTerragruntConfigFile W path tr
     = (Fail err, tr ++ [EvFileExists path; EvReadFile path]))
  ∧ (∀ contents, ReadFileAsString W path = inr contents →
       ∃ isConfig,
         IsTerragruntConfigFile W path tr
         = (Ret isConfig,
            tr ++ [EvFileExists path; EvReadFile path; EvHclDecode contents])
         ∧ (isConfig = true
            ↔ ∃ tfvars block,
                hcl_Decode_tfvarsFile W contents = inr tfvars
                ∧ Terragrunt tfvars = Some block)).
Proof.
  intros Hexists Hmodern.
  unfold IsTerragruntConfigFile, util_FileExists, isNewTerragruntConfig,
    util_ReadFileAsString, containsTerragruntBlock.
  rewrite bind_run, emit_bind_run. cbn [ret]. rewrite Hexists, Hmodern.
  cbn [negb]. rewrite bind_run, emit_bind_run. split.
  - intros err ->. cbn [lift fail]. by rewrite <- app_assoc.
  - intros contents ->. cbn [lift ret]. rewrite emit_bind_run.
    destruct (hcl_Decode_tfvarsFile W contents) as [e|tfvars] eqn:Hdecode.
    + exists false. split; [by rewrite <- !app_assoc|].
      split; [done | by intros (? & ? & [=] & _)].
    + eexists. split; [cbn [ret]; by rewrite <- !app_assoc|].
      destruct (Terragrunt tfvars) as [block|] eqn:Hblock.
      * split; [|done]. intros _. by exists tfvars, block.
      * split; [done|]. intros (? & ? & [= <-] & ?). congruence.
Qed.

Lemma IsTerragruntConfigFile_true_exists (path : string) (tr tr' : list Event) :
  IsTerragruntConfigFile W path tr = (Ret true, tr') →
  FileExists W path = true.
Proof.
  unfold IsTerragruntConfigFile, util_FileExists.
  rewrite bind_run, emit_bind_run. cbn [ret].
  destruct (FileExists W path); [done|]. cbn [negb]. by intros [=].
Qed.

(** A path the discovery may report for a walk over [entries]: an existing
    file that is the legacy or the default file of a directory of the
    walk. *)
Let reportable (entries : list WalkEntry) (path : string) : Prop :=
  FileExists W path = true
  ∧ ∃ entry, entry ∈ entries
      ∧ walk_IsDir entry = true ∧ walk_err entry = None
      ∧ (path = JoinPath W (walk_path entry) OldTerragruntConfigPath
         ∨ path = JoinPath W (walk_path entry) DefaultTerragruntConfigPath).

Lemma walkFn_adds (configFiles configFiles' : list string)
    (entry : WalkEntry) (tr tr' : list Event) :
  walkFn W configFiles entry tr = (Ret configFiles', tr') →
  configFiles' = configFiles
  ∨ ∃ path, configFiles' = configFiles ++ [path] ∧ reportable [entry] path.
Proof.
  unfold walkFn.
  destruct (walk_err entry) eqn:Herr; [done|].
  destruct (walk_IsDir entry) eqn:Hdir; [|intros [= <- _]; by left].
  rewrite bind_run, DefaultConfigPath_run, bind_run.
  match goal with
  | |- context [IsTerragruntConfigFile W ?p ?t] =>
      destruct (IsTerragruntConfigFile W p t) as [[[|]|e|] t'] eqn:Hrun;
      [ | intros [= <- _]; by left | done | done ]
  end.
  intros [= <- _]. right. eexists. split; [done|]. split.
  - by eapply IsTerragruntConfigFile_true_exists.
  - exists entry. split_and!; [by left | done | done |].
    destruct (FileExists W _); [by left | by right].
Qed.

Lemma walkLoop_reports (entries : list WalkEntry)
    (configFiles files : list string) (r : outcome unit)
    (tr tr' : list Event) :
  walkLoop W entries configFiles tr = ((files, r), tr') →
  ∀ path, path ∈ files → path ∈ configFiles ∨ reportable entries path.
Proof.
  revert configFiles tr.
  induction entries as [|entry entries IH]; intros configFiles tr; simpl.
  - intros [= <- _ _] path Hpath. by left.
  - destruct (walkFn W configFiles entry tr) as [[configFiles'|e|] tr1]
      eqn:Hstep; [|intros [= <- _ _] path Hpath; by left..].
    intros Hrest path Hpath.
    destruct (IH _ _ Hrest path Hpath) as [Hold|(Hexists & e & He & Hrest')].
    + apply walkFn_adds in Hstep as [->|(p & -> & Hexists & e & He & Hp)];
        [by left|].
      apply elem_of_app in Hold as [Hold|Hnew]; [by left|].
      apply list_elem_of_singleton in Hnew as ->. right. split; [done|].
      exists e. split; [|done].
      apply list_elem_of_singleton in He as ->. by left.
    + right. split; [done|]. exists e. split; [by right | done].
Qed.

(** X13: what the discovery reports. Every path in the list it returns,
    with or without an error, is an existing file, and is the legacy or the
    default configuration file of a directory the walk visited. *)
Theorem FindConfigFilesInPath_reports (rootPath : string) (tr : list Event) :
  ∀ path, path ∈ (FindConfigFilesInPath W rootPath tr).1.1 →
    FileExists W path = true
    ∧ ∃ entry, entry ∈ Walk W rootPath
        ∧ walk_IsDir entry = true ∧ walk_err entry = None
        ∧ (path = JoinPath W (walk_path entry) OldTerragruntConfigPath
           ∨ path = JoinPath W (walk_path entry) DefaultTerragruntConfigPath).
Proof.
  intros path Hpath. unfold FindConfigFilesInPath in Hpath.
  destruct (walkLoop W (Walk W rootPath) [] tr) as [[files r] tr'] eqn:Hrun.
  destruct (walkLoop_reports _ _ _ _ _ _ Hrun path Hpath) as [Hnil|Hok].
  - by apply elem_of_nil in Hnil.
  - exact Hok.
Qed.

Lemma walkLoop_app (entries1 entries2 : list WalkEntry)
    (configFiles files : list string) (tr tr1 : list Event) :
  walkLoop W entries1 configFiles tr = ((files, Ret tt), tr1) →
  walkLoop W (entries1 ++ entries2) configFiles tr
  = walkLoop W entries2 files tr1.
Proof.
  revert configFiles tr.
  induction entries1 as [|entry entries1 IH]; intros configFiles tr; simpl.
  - by intros [= <- <-].
  - destruct (walkFn W configFiles entry tr) as [[configFiles'|e|] tr0];
      [apply IH | done | done].
Qed.

(** X14: an error of the walk stops the discovery. When the walk hands an
    error to the callback, the entries after it are not looked at, and the
    files found up to there are returned together with that error. *)
Theorem FindConfigFilesInPath_walk_error (rootPath : string)
    (visited rest : list WalkEntry) (entry : WalkEntry) (err : error)
    (files : list string) (tr tr1 : list Event) :
  Walk W rootPath = visited ++ entry :: rest →
  walk_err entry = Some err →
  walkLoop W visited [] tr = ((files, Ret tt), tr1) →
  FindConfigFilesInPath W rootPath tr = ((files, Fail err), tr1).
Proof.
  intros Hwalk Herr Hvisited. unfold FindConfigFilesInPath.
  rewrite Hwalk, (walkLoop_app _ _ _ _ _ _ Hvisited). simpl.
  unfold walkFn. by rewrite Herr.
Qed.

End DetectionProperties.

Lemma IsTerragruntConfigFile_legacy_witness :
  IsTerragruntConfigFile Demo.world "/both/.terragrunt" []
  = (Ret true, [EvFileExists "/both/.terragrunt"]).
Proof.
  apply (IsTerragruntConfigFile_legacy Demo.world "/both/.terragrunt" []);
    reflexivity.
Defined.

Lemma IsTerragruntConfigFile_modern_witness :
  ∃ isConfig,
    IsTerragruntConfigFile Demo.world "/vars/terraform.tfvars" []
    = (Ret isConfig,
       [EvFileExists "/vars/terraform.tfvars";
        EvReadFile "/vars/terraform.tfvars"; EvHclDecode "plain-vars"])
    ∧ (isConfig = true
       ↔ ∃ tfvars block,
           hcl_Decode_tfvarsFile Demo.world "plain-vars" = inr tfvars
           ∧ Terragrunt tfvars = Some block).
Proof.
  apply (IsTerragruntConfigFile_modern Demo.world "/vars/terraform.tfvars" []);
    reflexivity.
Defined.

Lemma FindConfigFilesInPath_walk_error_witness :
  FindConfigFilesInPath DemoWalk.world "/live" []
  = ((["/live/terraform.tfvars"],
      Fail (CollaboratorError "open /live/locked: permission denied")),
     [EvFileExists "/live/.terragrunt"; EvFileExists "/live/terraform.tfvars";
      EvReadFile "/live/terraform.tfvars"; EvHclDecode "parent"]).
Proof.
  apply (FindConfigFilesInPath_walk_error DemoWalk.world "/live"
           [ {| walk_path := "/live"; walk_IsDir := true; walk_err := None |} ]
           [ {| walk_path := "/live/app"; walk_IsDir := true;
                walk_err := None |} ]
           {| walk_path := "/live/locked"; walk_IsDir := true;
              walk_err := Some (CollaboratorError
                                  "open /live/locked: permission denied") |});
    reflexivity.
Defined.

(** ** The pipeline, continued *)

Lemma readsOf_app (evs1 evs2 : list Event) :
  readsOf (evs1 ++ evs2) = readsOf evs1 ++ readsOf evs2.
Proof. apply omap_app. Qed.

Lemma readsOf_notices {A} (f : A → string) (l : list A) :
  readsOf ((λ x, EvLog (f x)) <$> l) = [].
Proof. induction l as [|x l IH]; [done | exact IH]. Qed.

(** The loop only logs: it records no stage and reads no file. *)
Lemma mergeLoop_reads child acc (tr : list Event) :
  ∃ result evs, mergeLoop child acc tr = (Ret result, tr ++ evs)
                ∧ noStages evs ∧ readsOf evs = [].
Proof.
  revert acc tr. induction child as [|c child IH]; intros acc tr; simpl.
  - exists acc, []. by rewrite app_nil_r.
  - rewrite bind_run. unfold mergeStep.
    destruct (findParent (Name c) acc 0) as [i|].
    + unfold Logger_Printf. rewrite emit_bind_run. unfold ret at 1.
      match goal with
      | |- context [mergeLoop child ?p ?t] =>
          destruct (IH p t) as (result & evs & -> & Hstages & Hreads)
      end.
      eexists _, _. split; [by rewrite <- app_assoc|].
      split; [by apply noStages_app|]. by rewrite readsOf_app, Hreads.
    + unfold ret at 1. apply IH.
Qed.

Section PipelineRuns.
Context {RemoteState LockConfig : Type}.
Variable W : Collaborators RemoteState LockConfig.
Implicit Types (file : terragruntConfigFile RemoteState LockConfig).
Implicit Types (rec : string → TerragruntOptions → option IncludeConfig
                      → M (TerragruntConfig RemoteState)).
Implicit Types (terragruntOptions : TerragruntOptions).
Implicit Types (include : option IncludeConfig).

Lemma merge_run_reads (config : TerragruntConfig RemoteState)
    (includedConfig : option (TerragruntConfig RemoteState))
    terragruntOptions (tr : list Event) :
  ∃ merged evs,
    mergeConfigWithIncludedConfig config includedConfig terragruntOptions tr
    = (Ret merged, tr ++ evs)
    ∧ noStages evs ∧ readsOf evs = []
    ∧ (includedConfig = None → merged = config ∧ evs = []).
Proof.
  unfold mergeConfigWithIncludedConfig.
  destruct includedConfig as [included|].
  2:{ eexists _, []. by rewrite app_nil_r. }
  rewrite bind_run.
  destruct (Terraform config) as [childTerraform|].
  2:{ eexists _, []. by rewrite app_nil_r. }
  destruct (Terraform included) as [parentTerraform|].
  2:{ eexists _, []. by rewrite app_nil_r. }
  rewrite bind_run. unfold mergeExtraArgs.
  destruct (mergeLoop_reads (ExtraArgs childTerraform)
              (ExtraArgs parentTerraform) tr)
    as (result & evs & -> & Hstages & Hreads).
  by eexists _, evs.
Qed.

Lemma convert_valid_run file terragruntOptions (tr : list Event) :
  remoteStateValid W file →
  ∃ evs,
    convertToTerragruntConfig W file terragruntOptions tr
    = (Ret (converted W file), tr ++ evs)
    ∧ noStages evs ∧ readsOf evs = [].
Proof.
  intros Hvalid.
  unfold convertToTerragruntConfig, converted, remoteStateValid, Logger_Printf
    in *.
  rewrite bind_run.
  assert (∃ evs0, (match file_Lock file with
                   | Some _ => emit (EvLog _)
                   | None => ret tt
                   end) tr = (Ret tt, tr ++ evs0)
                  ∧ noStages evs0 ∧ readsOf evs0 = [])
    as (evs0 & -> & Hstages & Hreads).
  { destruct (file_Lock file).
    - by eexists [_].
    - exists []. by rewrite app_nil_r. }
  rewrite bind_run.
  destruct (file_RemoteState file) as [rs|]; simpl.
  - rewrite !emit_bind_run, (Hvalid rs eq_refl).
    eexists (evs0 ++ [EvFillDefaults; EvValidate]). split_and!.
    + unfold ret. by rewrite <- !app_assoc.
    + by apply noStages_app.
    + by rewrite readsOf_app, Hreads.
  - by exists evs0.
Qed.

(** A file that loads is taken up to its depth check: what remains of the
    parse is the check, the resolution of the parent and the merge. *)
Lemma load_run rec (configPath : string) terragruntOptions include file
    (tr : list Event) :
  loadsAs W configPath terragruntOptions include file →
  ∃ evs,
    readsOf evs = [configPath]
    ∧ stagesAt (levelOf include) evs
      = [Decode; NoBlockCheck; ConvertToFinal; CheckInheritanceDepth]
    ∧ ParseConfigFile_ W rec configPath terragruntOptions include tr
      = (match include, file_Include file with
         | Some inc, Some fileInclude =>
             fail (TooManyLevelsOfInheritance
                     (TerragruntConfigPath terragruntOptions)
                     (Path inc) (Path fileInclude))
         | _, _ =>
             emit (EvStage (levelOf include) ResolveParent);;
             includedConfig ←
               parseIncludedConfig_ W rec (file_Include file)
                 terragruntOptions;
             emit (EvStage (levelOf include) Merge);;
             mergeConfigWithIncludedConfig (converted W file) includedConfig
               terragruntOptions
         end) (tr ++ evs).
Proof.
  intros (contents & resolved & Hread & Hresolve & Hdecode & Hvalid).
  unfold ParseConfigFile_, util_ReadFileAsString, Logger_Printf.
  rewrite bind_run.
  assert (∃ evs0, (if isOldTerragruntConfig configPath
                   then emit (EvLog _) else ret tt) tr
                  = (Ret tt, tr ++ evs0)
                  ∧ noStages evs0 ∧ readsOf evs0 = [])
    as (evs0 & -> & Hstages0 & Hreads0).
  { destruct (isOldTerragruntConfig configPath).
    - by eexists [_].
    - exists []. by rewrite app_nil_r. }
  rewrite bind_run, emit_bind_run, Hread. cbn [lift ret].
  unfold parseConfigString_.
  rewrite bind_run, resolveConfigString_run, Hresolve.
  rewrite emit_bind_run, bind_run.
  match goal with
  | |- context [parseConfigStringAsTerragruntConfigFile W ?s ?p ?t] =>
      destruct (decode_run W s p t) as (rd & -> & Hrd & _)
  end.
  apply Hrd in Hdecode as ->.
  rewrite !emit_bind_run, bind_run.
  match goal with
  | |- context [convertToTerragruntConfig W ?f ?o ?t] =>
      destruct (convert_valid_run f o t Hvalid) as (evc & -> & Hstagesc & Hreadsc)
  end.
  rewrite emit_bind_run.
  eexists. split_and!; [| |rewrite <- !app_assoc; reflexivity].
  - by rewrite !readsOf_app, Hreads0, Hreadsc.
  - rewrite !stagesAt_app, Hstages0, Hstagesc. by destruct include.
Qed.

Lemma leaf_run (fuel : nat) (configPath : string)
    terragruntOptions include file (tr : list Event) :
  loadsAs W configPath terragruntOptions include file →
  file_Include file = None →
  ∃ evs,
    ParseConfigFile W (S fuel) configPath terragruntOptions include tr
    = (Ret (converted W file), tr ++ evs)
    ∧ readsOf evs = [configPath]
    ∧ stagesAt (levelOf include) evs = pipelineOrder.
Proof.
  intros Hload Hinclude. cbn [ParseConfigFile].
  destruct (load_run (ParseConfigFile W fuel) _ _ _ _ tr Hload)
    as (evs & Hreads & Hstages & ->).
  rewrite Hinclude.
  assert (∀ t, ∃ evs',
            (emit (EvStage (levelOf include) ResolveParent);;
             includedConfig ←
               parseIncludedConfig_ W (ParseConfigFile W fuel) None
                 terragruntOptions;
             emit (EvStage (levelOf include) Merge);;
             mergeConfigWithIncludedConfig (converted W file) includedConfig
               terragruntOptions) t
            = (Ret (converted W file), t ++ evs')
            ∧ readsOf evs' = []
            ∧ stagesAt (levelOf include) evs' = [ResolveParent; Merge])
    as Hrest.
  { intros t. rewrite emit_bind_run, bind_run. cbn [parseIncludedConfig_ ret].
    rewrite emit_bind_run. eexists. split_and!.
    - cbn [mergeConfigWithIncludedConfig ret]. by rewrite <- app_assoc.
    - done.
    - by destruct include. }
  destruct (Hrest (tr ++ evs)) as (evs' & Hrun & Hreads' & Hstages').
  exists (evs ++ evs'). split_and!.
  - rewrite app_assoc, <- Hrun. by destruct include.
  - by rewrite readsOf_app, Hreads, Hreads'.
  - by rewrite stagesAt_app, Hstages, Hstages'.
Qed.

(** X15: a file that loads and declares no include parses to its own
    converted configuration, whatever the include context and with one unit
    of fuel; it is the only file read. *)
Theorem ParseConfigFile_without_include (fuel : nat) (configPath : string)
    terragruntOptions include file (tr : list Event) :
  loadsAs W configPath terragruntOptions include file →
  file_Include file = None →
  ∃ evs,
    ParseConfigFile W (S fuel) configPath terragruntOptions include tr
    = (Ret (converted W file), tr ++ evs)
    ∧ readsOf evs = [configPath]
    ∧ stagesAt (levelOf include) evs = pipelineOrder.
Proof. apply leaf_run. Qed.

(** A file that loads and declares an include with a path that resolves is
    taken up to the parse of the parent: what remains is that parse and
    the merge. *)
Lemma include_run rec (configPath : string) terragruntOptions file
    (inc : IncludeConfig) (resolvedIncludePath : string) (tr : list Event) :
  loadsAs W configPath terragruntOptions None file →
  file_Include file = Some inc →
  Path inc ≠ "" →
  ResolveTerragruntConfigString W (Path inc) None terragruntOptions
  = inr resolvedIncludePath →
  ∃ evs,
    readsOf evs = [configPath]
    ∧ ParseConfigFile_ W rec configPath terragruntOptions None tr
      = (config ← rec (includeTarget W terragruntOptions resolvedIncludePath)
                    terragruntOptions (Some inc);
         emit (EvStage TopLevel Merge);;
         mergeConfigWithIncludedConfig (converted W file) (Some config)
           terragruntOptions) (tr ++ evs).
Proof.
  intros Hload Hinclude Hpath Hresolve.
  destruct (load_run rec _ _ _ _ tr Hload) as (evs & Hreads & _ & ->).
  rewrite Hinclude. cbn [levelOf].
  rewrite emit_bind_run, bind_run. unfold parseIncludedConfig_.
  apply String.eqb_neq in Hpath. rewrite Hpath.
  rewrite bind_run, resolveConfigString_run, Hresolve.
  exists (evs ++ [EvStage TopLevel ResolveParent; EvInterpolate (Path inc)]).
  split; [by rewrite readsOf_app, Hreads|].
  rewrite !bind_run, <- !app_assoc. unfold includeTarget. simpl.
  by destruct (IsAbs W resolvedIncludePath);
    destruct (rec _ _ _ _) as [[config|e|] t].
Qed.

(** X16: a child that includes a parent. When the child loads, its include
    path resolves, and the file at the include target loads and declares no
    include itself, the parse returns the merge of the child's converted
    configuration with the parent's. The include target is the resolved
    path if absolute, and else that path joined to the directory of the
    configuration path of the options. Two files are read: the child, then
    the parent. *)
Theorem ParseConfigFile_with_include (fuel : nat) (configPath : string)
    terragruntOptions file parentFile (inc : IncludeConfig)
    (resolvedIncludePath : string) (tr : list Event) :
  loadsAs W configPath terragruntOptions None file →
  file_Include file = Some inc →
  Path inc ≠ "" →
  ResolveTerragruntConfigString W (Path inc) None terragruntOptions
  = inr resolvedIncludePath →
  loadsAs W (includeTarget W terragruntOptions resolvedIncludePath)
    terragruntOptions (Some inc) parentFile →
  file_Include parentFile = None →
  ∃ merged evs t t',
    ParseConfigFile W (S (S fuel)) configPath terragruntOptions None tr
    = (Ret merged, tr ++ evs)
    ∧ readsOf evs
      = [configPath; includeTarget W terragruntOptions resolvedIncludePath]
    ∧ mergeConfigWithIncludedConfig (converted W file)
        (Some (converted W parentFile)) terragruntOptions t
      = (Ret merged, t').
Proof.
  intros Hload Hinclude Hpath Hresolve Hparent Hleaf.
  change (ParseConfigFile W (S (S fuel)))
    with (ParseConfigFile_ W (ParseConfigFile W (S fuel))).
  destruct (include_run (ParseConfigFile W (S fuel))
              _ _ _ _ _ tr Hload Hinclude Hpath Hresolve)
    as (evs & Hreads & ->).
  rewrite bind_run.
  destruct (leaf_run fuel _ _ _ _ (tr ++ evs) Hparent Hleaf)
    as (evs1 & Hrun1 & Hreads1 & _).
  rewrite Hrun1, emit_bind_run.
  match goal with
  | |- context [mergeConfigWithIncludedConfig ?c ?i ?o ?t] =>
      destruct (merge_run_reads c i o t) as (merged & evs2 & Hrun2 & _ & Hreads2 & _)
  end.
  eexists merged, _, _, _. split_and!.
  - rewrite Hrun2, <- !app_assoc. reflexivity.
  - by rewrite !readsOf_app, Hreads, Hreads1, Hreads2.
  - exact Hrun2.
Qed.

(** X17: a child whose parent includes a grandparent. When the child and
    the file at its include target load, and that file declares an include
    of its own, the parse of the child fails with
    [TooManyLevelsOfInheritance], carrying the configuration path of the
    options and the two include paths as written. The grandparent is never
    read. *)
Theorem ParseConfigFile_grandparent_rejected (fuel : nat)
    (configPath : string) terragruntOptions file parentFile
    (inc parentInclude : IncludeConfig) (resolvedIncludePath : string)
    (tr : list Event) :
  loadsAs W configPath terragruntOptions None file →
  file_Include file = Some inc →
  Path inc ≠ "" →
  ResolveTerragruntConfigString W (Path inc) None terragruntOptions
  = inr resolvedIncludePath →
  loadsAs W (includeTarget W terragruntOptions resolvedIncludePath)
    terragruntOptions (Some inc) parentFile →
  file_Include parentFile = Some parentInclude →
  ∃ evs,
    ParseConfigFile W (S (S fuel)) configPath terragruntOptions None tr
    = (Fail (TooManyLevelsOfInheritance
               (TerragruntConfigPath terragruntOptions)
               (Path inc) (Path parentInclude)),
       tr ++ evs)
    ∧ readsOf evs
      = [configPath; includeTarget W terragruntOptions resolvedIncludePath].
Proof.
  intros Hload Hinclude Hpath Hresolve Hparent Hchain.
  change (ParseConfigFile W (S (S fuel)))
    with (ParseConfigFile_ W (ParseConfigFile W (S fuel))).
  destruct (include_run (ParseConfigFile W (S fuel))
              _ _ _ _ _ tr Hload Hinclude Hpath Hresolve)
    as (evs & Hreads & ->).
  rewrite bind_run.
  change (ParseConfigFile W (S fuel))
    with (ParseConfigFile_ W (ParseConfigFile W fuel)).
  destruct (load_run (ParseConfigFile W fuel) _ _ _ _ (tr ++ evs) Hparent)
    as (evs1 & Hreads1 & _ & ->).
  rewrite Hchain. cbn [fail]. eexists. split.
  - rewrite <- !app_assoc. reflexivity.
  - by rewrite !readsOf_app, Hreads, Hreads1.
Qed.

(** X18: a file that cannot be read. The parse fails with the error of the
    read; before the read it logs the deprecation warning if the path is a
    legacy one, and nothing otherwise; nothing is interpolated or decoded. *)
Theorem ParseConfigFile_read_error (fuel : nat) (configPath : string)
    terragruntOptions include (err : error) (tr : list Event) :
  ReadFileAsString W configPath = inl err →
  ∃ warnings,
    ParseConfigFile W (S fuel) configPath terragruntOptions include tr
    = (Fail err, tr ++ (EvLog <$> warnings) ++ [EvReadFile configPath])
    ∧ length warnings = (if isOldTerragruntConfig configPath then 1 else 0).
Proof.
  intros Hread. cbn [ParseConfigFile].
  unfold ParseConfigFile_, util_ReadFileAsString, Logger_Printf.
  rewrite bind_run.
  destruct (isOldTerragruntConfig configPath); cbn [emit ret];
    rewrite bind_run, emit_bind_run, Hread; cbn [lift fail].
  - eexists [_]. split; [|done]. by rewrite <- app_assoc.
  - by exists [].
Qed.

(** X19: a file that is read but whose text cannot be interpolated, or
    cannot be decoded. The parse fails with the error of the interpolation
    resolver, respectively of the decoder (the plain decoder for a legacy
    path, the wrapper's for any other), and stops there: nothing is
    converted, resolved or merged, and no other file is read. *)
Theorem ParseConfigFile_malformed (fuel : nat) (configPath contents : string)
    terragruntOptions include (tr : list Event) :
  ReadFileAsString W configPath = inr contents →
  (∀ err,
     ResolveTerragruntConfigString W contents include terragruntOptions
     = inl err →
     ∃ evs,
       ParseConfigFile W (S fuel) configPath terragruntOptions include tr
       = (Fail err, tr ++ evs)
       ∧ readsOf evs = [configPath]
       ∧ stagesAt (levelOf include) evs = [])
  ∧ (∀ resolved err,
       ResolveTerragruntConfigString W contents include terragruntOptions
       = inr resolved →
       (if isOldTerragruntConfig configPath
        then hcl_Decode_terragruntConfigFile W resolved = inl err
        else hcl_Decode_tfvarsFile W resolved = inl err) →
       ∃ evs,
         ParseConfigFile W (S fuel) configPath terragruntOptions include tr
         = (Fail err, tr ++ evs)
         ∧ readsOf evs = [configPath]
         ∧ stagesAt (levelOf include) evs = [Decode]).
Proof.
  intros Hread.
  assert (∃ evs0,
            readsOf evs0 = [configPath] ∧ noStages evs0
            ∧ ParseConfigFile W (S fuel) configPath terragruntOptions include tr
              = parseConfigString_ W (ParseConfigFile W fuel) contents
                  terragruntOptions include configPath (tr ++ evs0))
    as (evs0 & Hreads0 & Hstages0 & ->).
  { cbn [ParseConfigFile].
    unfold ParseConfigFile_, util_ReadFileAsString, Logger_Printf.
    rewrite bind_run.
    destruct (isOldTerragruntConfig configPath); cbn [emit ret];
      rewrite bind_run, emit_bind_run, Hread; cbn [lift ret].
    - eexists. split_and!.
      3: rewrite <- app_assoc; reflexivity.
      all: done.
    - eexists. split_and!.
      3: reflexivity.
      all: done. }
  unfold parseConfigString_. rewrite bind_run, resolveConfigString_run.
  split.
  - intros err ->. eexists. split_and!.
    + by rewrite <- app_assoc.
    + by rewrite readsOf_app, Hreads0.
    + by rewrite stagesAt_app, Hstages0.
  - intros resolved err -> Hdecode.
    rewrite emit_bind_run, bind_run.
    unfold parseConfigStringAsTerragruntConfigFile.
    destruct (isOldTerragruntConfig configPath);
      rewrite emit_bind_run, bind_run, Hdecode; cbn [lift fail];
      (eexists; split_and!;
       [ rewrite <- !app_assoc; reflexivity
       | by rewrite readsOf_app, Hreads0
       | rewrite stagesAt_app, Hstages0; by destruct include ]).
Qed.

Lemma convert_run_reads file terragruntOptions (tr : list Event) :
  ∃ r evs,
    convertToTerragruntConfig W file terragruntOptions tr = (r, tr ++ evs)
    ∧ readsOf evs = [].
Proof.
  unfold convertToTerragruntConfig, Logger_Printf. rewrite bind_run.
  assert (∃ evs0, (match file_Lock file with
                   | Some _ => emit (EvLog _)
                   | None => ret tt
                   end) tr = (Ret tt, tr ++ evs0) ∧ readsOf evs0 = [])
    as (evs0 & -> & Hreads).
  { destruct (file_Lock file).
    - by eexists [_].
    - exists []. by rewrite app_nil_r. }
  rewrite bind_run.
  destruct (file_RemoteState file) as [rs|].
  - rewrite !emit_bind_run.
    destruct (Validate W (FillDefaults W rs));
      (eexists _, (evs0 ++ [EvFillDefaults; EvValidate]);
       split; [cbn [fail ret]; by rewrite <- !app_assoc
              | by rewrite readsOf_app, Hreads]).
  - by eexists _, evs0.
Qed.

Ltac close_reads :=
  eexists _, _; split; [rewrite <- ?app_assoc; reflexivity|];
  rewrite ?readsOf_app;
  repeat match goal with
         | H : readsOf _ = [] |- _ => rewrite !H
         end;
  simpl; rewrite ?app_nil_r;
  split; [ simpl; lia | first [ done | by intros [? ?] ] ].

(** A parse call reads no file itself; the only file read under it is the
    one the parse of the parent reads, and a parse of an included file has
    no parent parsed. *)
Lemma parseConfigString_reads rec (configString : string)
    terragruntOptions include (configPath : string) (tr : list Event) :
  (∀ path o inc t, ∃ evs, (rec path o (Some inc) t).2 = t ++ evs
                          ∧ length (readsOf evs) ≤ 1) →
  ∃ r evs,
    parseConfigString_ W rec configString terragruntOptions include
      configPath tr = (r, tr ++ evs)
    ∧ length (readsOf evs) ≤ 1
    ∧ (is_Some include → readsOf evs = []).
Proof.
  intros Hrec. unfold parseConfigString_.
  rewrite bind_run, resolveConfigString_run.
  destruct (ResolveTerragruntConfigString W configString include
              terragruntOptions) as [e|resolved]; [close_reads|].
  rewrite emit_bind_run, bind_run.
  match goal with
  | |- context [parseConfigStringAsTerragruntConfigFile W ?s ?p ?t] =>
      destruct (decode_run W s p t) as (rd & -> & _ & _)
  end.
  destruct rd as [[file|]|e|];
    [ | rewrite emit_bind_run; unfold fail | | ];
    [ | close_reads .. ].
  rewrite !emit_bind_run, bind_run.
  match goal with
  | |- context [convertToTerragruntConfig W ?f ?o ?t] =>
      destruct (convert_run_reads f o t) as (rc & evc & -> & Hevc)
  end.
  destruct rc as [config|e|]; [ | close_reads .. ].
  rewrite emit_bind_run.
  assert (∀ t included, ∃ r evs,
            (emit (EvStage (levelOf include) Merge);;
             mergeConfigWithIncludedConfig config included terragruntOptions) t
            = (Ret r, t ++ evs) ∧ readsOf evs = []) as Hmerge.
  { intros t included. rewrite emit_bind_run.
    match goal with
    | |- context [mergeConfigWithIncludedConfig ?c ?i ?o ?t'] =>
        destruct (merge_run_reads c i o t') as (merged & evs & -> & _ & Hevs & _)
    end.
    eexists _, _. split; [rewrite <- ?app_assoc; reflexivity|].
    by rewrite readsOf_app, Hevs. }
  assert (∀ t, ∃ r evs,
            (parseIncludedConfig_ W rec None terragruntOptions
             ≫= λ includedConfig,
                  emit (EvStage (levelOf include) Merge);;
                  mergeConfigWithIncludedConfig config includedConfig
                    terragruntOptions) t
            = (Ret r, t ++ evs) ∧ readsOf evs = []) as Hnone.
  { intros t. exact (Hmerge t None). }
  destruct include as [inc|];
    destruct (file_Include file) as [fileInclude|] eqn:Hinclude;
    cbn [levelOf] in *.
  - unfold fail. close_reads.
  - rewrite emit_bind_run.
    match goal with
    | |- context [(_ ≫= _) ?t] =>
        destruct (Hnone t) as (r & evs & -> & Hreads)
    end.
    close_reads.
  - rewrite emit_bind_run, bind_run. unfold parseIncludedConfig_.
    destruct (String.eqb (Path fileInclude) ""); [unfold fail; close_reads|].
    rewrite bind_run, resolveConfigString_run.
    destruct (ResolveTerragruntConfigString W (Path fileInclude) None
                terragruntOptions) as [e|resolvedIncludePath];
      [close_reads|].
    rewrite bind_run.
    match goal with
    | |- context [rec ?path ?o (Some ?i) ?t] =>
        destruct (Hrec path o i t) as (evr & Hevr & Hone);
        destruct (rec path o (Some i) t) as [rr trr]
    end.
    simpl in Hevr. subst trr.
    destruct rr as [included|e|]; [|close_reads..].
    unfold ret.
    match goal with
    | |- context [(_ ≫= _) ?t] =>
        destruct (Hmerge t (Some included)) as (r & evs & -> & Hreads)
    end.
    close_reads.
  - rewrite emit_bind_run.
    match goal with
    | |- context [(_ ≫= _) ?t] =>
        destruct (Hnone t) as (r & evs & -> & Hreads)
    end.
    close_reads.
Qed.

(** What the parse of a file reads: the file, then at most what the parse
    call reads under it. *)
Lemma ParseConfigFile_reads_step rec (configPath : string) terragruntOptions
    include (tr : list Event) :
  (∀ path o inc t, ∃ evs, (rec path o (Some inc) t).2 = t ++ evs
                          ∧ length (readsOf evs) ≤ 1) →
  ∃ r evs rest,
    ParseConfigFile_ W rec configPath terragruntOptions include tr
    = (r, tr ++ evs)
    ∧ readsOf evs = configPath :: rest
    ∧ length rest ≤ 1
    ∧ (is_Some include → rest = []).
Proof.
  intros Hrec. unfold ParseConfigFile_, util_ReadFileAsString, Logger_Printf.
  rewrite bind_run.
  assert (∃ evs0, (if isOldTerragruntConfig configPath
                   then emit (EvLog _) else ret tt) tr
                  = (Ret tt, tr ++ evs0) ∧ readsOf evs0 = [])
    as (evs0 & -> & Hreads0).
  { destruct (isOldTerragruntConfig configPath).
    - by eexists [_].
    - exists []. by rewrite app_nil_r. }
  rewrite bind_run, emit_bind_run.
  destruct (ReadFileAsString W configPath) as [e|contents]; cbn [lift fail ret].
  - eexists _, _, []. split; [by rewrite <- app_assoc|].
    rewrite readsOf_app, Hreads0. split_and!; [done | simpl; lia | done].
  - match goal with
    | |- context [parseConfigString_ W ?rec ?s ?o ?i ?p ?t] =>
        destruct (parseConfigString_reads rec s o i p t Hrec)
          as (r & evs & -> & Hone & Hnone)
    end.
    eexists _, _, (readsOf evs). split; [by rewrite <- !app_assoc|].
    rewrite !readsOf_app, Hreads0. split_and!; done.
Qed.

Lemma ParseConfigFile_included_reads (fuel : nat) (configPath : string)
    terragruntOptions (inc : IncludeConfig) (tr : list Event) :
  ∃ evs, (ParseConfigFile W fuel configPath terragruntOptions (Some inc) tr).2
         = tr ++ evs
         ∧ length (readsOf evs) ≤ 1.
Proof.
  revert configPath terragruntOptions inc tr.
  induction fuel as [|fuel IH]; intros configPath terragruntOptions inc tr.
  { exists []. split; [by rewrite app_nil_r | simpl; lia]. }
  cbn [ParseConfigFile].
  destruct (ParseConfigFile_reads_step (ParseConfigFile W fuel) configPath
              terragruntOptions (Some inc) tr IH)
    as (r & evs & rest & -> & Hreads & _ & Hnone).
  exists evs. split; [done|]. rewrite Hreads, Hnone by by eexists. simpl. lia.
Qed.

(** X20: reading a configuration reads at most two files, whatever the
    files hold: the configuration file of the options first, then at most
    one more, the included parent. *)
Theorem ReadTerragruntConfig_reads_at_most_two (fuel : nat)
    terragruntOptions (tr : list Event) :
  ∃ r evs rest,
    ReadTerragruntConfig W (S fuel) terragruntOptions tr = (r, tr ++ evs)
    ∧ readsOf evs = TerragruntConfigPath terragruntOptions :: rest
    ∧ length rest ≤ 1.
Proof.
  unfold ReadTerragruntConfig, Logger_Printf. rewrite emit_bind_run.
  cbn [ParseConfigFile].
  match goal with
  | |- context [ParseConfigFile_ W ?rec ?p ?o ?i ?t] =>
      destruct (ParseConfigFile_reads_step rec p o i t
                  (ParseConfigFile_included_reads fuel))
        as (r & evs & rest & -> & Hreads & Hone & _)
  end.
  eexists _, _, rest. split; [by rewrite <- app_assoc|].
  by rewrite readsOf_app, Hreads.
Qed.

Lemma bind_ext {A B} (m : M A) (f g : A → M B) (tr : list Event) :
  (∀ a t, f a t = g a t) → (m ≫= f) tr = (m ≫= g) tr.
Proof.
  intros Hfg. rewrite !bind_run. by destruct (m tr) as [[a|e|] t].
Qed.

(** A parse call asks [ParseConfigFile] only for parses of included files,
    and the parse call of an included file does not ask at all. *)
Lemma parseConfigString_rec rec rec' (configString : string)
    terragruntOptions include (configPath : string) (tr : list Event) :
  (is_Some include
   ∨ ∀ path o inc t, rec path o (Some inc) t = rec' path o (Some inc) t) →
  parseConfigString_ W rec configString terragruntOptions include
    configPath tr
  = parseConfigString_ W rec' configString terragruntOptions include
      configPath tr.
Proof.
  intros Hrec. unfold parseConfigString_.
  apply bind_ext. intros resolved t1.
  apply bind_ext. intros _ t2.
  apply bind_ext. intros [file|] t3; [|done].
  apply bind_ext. intros _ t4.
  apply bind_ext. intros _ t5.
  apply bind_ext. intros config t6.
  apply bind_ext. intros _ t7.
  destruct include as [inc|];
    destruct (file_Include file) as [fileInclude|]; [done|done| |done].
  destruct Hrec as [[? [=]]|Hrec].
  apply bind_ext. intros _ t8. rewrite !bind_run.
  assert (parseIncludedConfig_ W rec (Some fileInclude) terragruntOptions t8
          = parseIncludedConfig_ W rec' (Some fileInclude) terragruntOptions t8)
    as ->; [|done].
  unfold parseIncludedConfig_.
  destruct (String.eqb (Path fileInclude) ""); [done|].
  apply bind_ext. intros resolvedIncludePath t9.
  by rewrite !bind_run, Hrec.
Qed.

Lemma ParseConfigFile_rec rec rec' (configPath : string) terragruntOptions
    include (tr : list Event) :
  (is_Some include
   ∨ ∀ path o inc t, rec path o (Some inc) t = rec' path o (Some inc) t) →
  ParseConfigFile_ W rec configPath terragruntOptions include tr
  = ParseConfigFile_ W rec' configPath terragruntOptions include tr.
Proof.
  intros Hrec. unfold ParseConfigFile_.
  apply bind_ext. intros _ t1.
  apply bind_ext. intros configString t2.
  by apply parseConfigString_rec.
Qed.

(** X21: two levels are all there is. With fuel for two nested calls
    [ParseConfigFile] does not run out, and more fuel changes neither its
    result nor its trace: however the files include one another, no parse
    nests deeper than a file and its parent. *)
Theorem ParseConfigFile_two_levels (fuel : nat) (configPath : string)
    terragruntOptions include (tr : list Event) :
  ParseConfigFile W (S (S fuel)) configPath terragruntOptions include tr
  = ParseConfigFile W 2 configPath terragruntOptions include tr
  ∧ (ParseConfigFile W 2 configPath terragruntOptions include tr).1
    ≠ OutOfFuel.
Proof.
  split; [|apply ParseConfigFile_returns].
  change (ParseConfigFile W (S (S fuel)))
    with (ParseConfigFile_ W (ParseConfigFile W (S fuel))).
  change (ParseConfigFile W 2)
    with (ParseConfigFile_ W (ParseConfigFile W 1)).
  apply ParseConfigFile_rec. right. intros path o inc t.
  change (ParseConfigFile W (S fuel))
    with (ParseConfigFile_ W (ParseConfigFile W fuel)).
  change (ParseConfigFile W 1)
    with (ParseConfigFile_ W (ParseConfigFile W 0)).
  apply ParseConfigFile_rec. left. by eexists.
Qed.

End PipelineRuns.

(** ** The further properties at work in the demo world *)

Lemma ParseConfigFile_without_include_witness :
  loadsAs Demo.world "/live/terraform.tfvars"
    (Demo.options "/live/terraform.tfvars") None Demo.parentFile
  ∧ ∃ evs,
      ParseConfigFile Demo.world 1 "/live/terraform.tfvars"
        (Demo.options "/live/terraform.tfvars") None []
      = (Ret (converted Demo.world Demo.parentFile), [] ++ evs)
      ∧ readsOf evs = ["/live/terraform.tfvars"]
      ∧ stagesAt TopLevel evs = pipelineOrder.
Proof.
  assert (loadsAs Demo.world "/live/terraform.tfvars"
            (Demo.options "/live/terraform.tfvars") None Demo.parentFile)
    as Hload.
  { exists "parent", "parent". split_and!; [reflexivity..| |].
    - exists {| Terragrunt := Some Demo.parentFile |}. split; reflexivity.
    - intros rs [= <-]. reflexivity. }
  split; [exact Hload|].
  exact (ParseConfigFile_without_include Demo.world 0 "/live/terraform.tfvars"
           (Demo.options "/live/terraform.tfvars") None Demo.parentFile []
           Hload eq_refl).
Defined.

Lemma ParseConfigFile_with_include_witness :
  includeTarget Demo.world (Demo.options "/rel/terraform.tfvars") "parent.tfvars"
  = "/rel/parent.tfvars"
  ∧ ∃ merged evs t t',
      ParseConfigFile Demo.world 2 "/rel/terraform.tfvars"
        (Demo.options "/rel/terraform.tfvars") None []
      = (Ret merged, [] ++ evs)
      ∧ readsOf evs
        = ["/rel/terraform.tfvars";
           includeTarget Demo.world (Demo.options "/rel/terraform.tfvars")
             "parent.tfvars"]
      ∧ mergeConfigWithIncludedConfig
          (converted Demo.world (Demo.childOf "parent.tfvars"))
          (Some (converted Demo.world Demo.parentFile))
          (Demo.options "/rel/terraform.tfvars") t
        = (Ret merged, t').
Proof.
  split; [reflexivity|].
  apply (ParseConfigFile_with_include Demo.world 0 "/rel/terraform.tfvars"
           (Demo.options "/rel/terraform.tfvars")
           (Demo.childOf "parent.tfvars") Demo.parentFile
           {| Path := "parent.tfvars" |} "parent.tfvars" []).
  - exists "relative-child", "relative-child". split_and!; [reflexivity..| |].
    + exists {| Terragrunt := Some (Demo.childOf "parent.tfvars") |}.
      split; reflexivity.
    + intros rs [=].
  - reflexivity.
  - discriminate.
  - reflexivity.
  - exists "parent", "parent". split_and!; [reflexivity..| |].
    + exists {| Terragrunt := Some Demo.parentFile |}. split; reflexivity.
    + intros rs [= <-]. reflexivity.
  - reflexivity.
Defined.

Lemma ParseConfigFile_grandparent_rejected_witness :
  ∃ evs,
    ParseConfigFile Demo.world 2 "/chain/app/terraform.tfvars"
      (Demo.options "/chain/app/terraform.tfvars") None []
    = (Fail (TooManyLevelsOfInheritance "/chain/app/terraform.tfvars"
               "/chain/terraform.tfvars" "/root.tfvars"),
       [] ++ evs)
    ∧ readsOf evs
      = ["/chain/app/terraform.tfvars"; "/chain/terraform.tfvars"].
Proof.
  apply (ParseConfigFile_grandparent_rejected Demo.world 0
           "/chain/app/terraform.tfvars"
           (Demo.options "/chain/app/terraform.tfvars")
           (Demo.childOf "/chain/terraform.tfvars") (Demo.chainedFile "s3")
           {| Path := "/chain/terraform.tfvars" |} {| Path := "/root.tfvars" |}
           "/chain/terraform.tfvars" []).
  - exists "chain-child", "chain-child". split_and!; [reflexivity..| |].
    + exists {| Terragrunt := Some (Demo.childOf "/chain/terraform.tfvars") |}.
      split; reflexivity.
    + intros rs [=].
  - reflexivity.
  - discriminate.
  - reflexivity.
  - exists "chained", "chained". split_and!; [reflexivity..| |].
    + exists {| Terragrunt := Some (Demo.chainedFile "s3") |}.
      split; reflexivity.
    + intros rs [= <-]. reflexivity.
  - reflexivity.
Defined.

Lemma ParseConfigFile_read_error_witness :
  ∃ warnings,
    ParseConfigFile Demo.world 1 "/gone/.terragrunt"
      (Demo.options "/gone/.terragrunt") None []
    = (Fail (CollaboratorError "open: no such file or directory"),
       [] ++ (EvLog <$> warnings) ++ [EvReadFile "/gone/.terragrunt"])
    ∧ length warnings = 1.
Proof.
  apply (ParseConfigFile_read_error Demo.world 0 "/gone/.terragrunt"
           (Demo.options "/gone/.terragrunt") None
           (CollaboratorError "open: no such file or directory") []).
  reflexivity.
Defined.

Lemma ParseConfigFile_malformed_witness :
  ∃ evs,
    ParseConfigFile DemoGarbled.world 1 "/garbled/terraform.tfvars"
      (Demo.options "/garbled/terraform.tfvars") None []
    = (Fail (CollaboratorError "hcl: parse error"), [] ++ evs)
    ∧ readsOf evs = ["/garbled/terraform.tfvars"]
    ∧ stagesAt TopLevel evs = [Decode].
Proof.
  refine (proj2 (ParseConfigFile_malformed DemoGarbled.world 0
                   "/garbled/terraform.tfvars" "{{{"
                   (Demo.options "/garbled/terraform.tfvars") None []
                   eq_refl)
            "{{{" (CollaboratorError "hcl: parse error") eq_refl eq_refl).
Defined.

Lemma FindConfigFilesInPath_reports_witness :
  "/live/terraform.tfvars" ∈ (FindConfigFilesInPath Demo.world "/live" []).1.1
  ∧ FileExists Demo.world "/live/terraform.tfvars" = true
  ∧ ∃ entry, entry ∈ Walk Demo.world "/live"
      ∧ walk_IsDir entry = true ∧ walk_err entry = None
      ∧ ("/live/terraform.tfvars"
         = JoinPath Demo.world (walk_path entry) OldTerragruntConfigPath
         ∨ "/live/terraform.tfvars"
           = JoinPath Demo.world (walk_path entry) DefaultTerragruntConfigPath).
Proof.
  assert ("/live/terraform.tfvars"
          ∈ (FindConfigFilesInPath Demo.world "/live" []).1.1) as Hfound.
  { change ("/live/terraform.tfvars" ∈ ["/live/terraform.tfvars"]).
    by left. }
  split; [exact Hfound|].
  exact (FindConfigFilesInPath_reports Demo.world "/live" []
           "/live/terraform.tfvars" Hfound).
Defined.
